(** * SoAvsAoS: a container of records with a selectable memory layout

    Shallow embedding of [main.cpp]: the proxy [ref_wrap], the two
    specialisations of [DataLayoutPolicy] (array of structures and structure
    of arrays), [BaseContainer] and its position based [Iterator], followed by
    the properties of the specification that concern them.

    Conventions of the embedding.
    - [std::size_t] is a 64-bit and [unsigned] a 32-bit unsigned integer; both
      are carried by [Z] and every conversion the source performs is written
      out ([to_size_t], [to_unsigned]).
    - [std::vector<T>] is a [list T].  Memory is never exhausted in the model,
      and [size()] is the length itself: the library keeps a vector no longer
      than [max_size()], which is below [2^64].  [Vector.resize] is the vector
      a call of [resize] leaves when it returns; [Vector.resize_checked] adds
      the length check of the library, which throws above [max_size()].
    - A member function that is declared to return a value and has no
      [return] statement is undefined when called: the call is [None], and
      the state its body leaves is given by a function of its own.
    - A parameter pack [Types...] is a list of type names [ty] with a
      denotation [den]; [std::tuple<F<Types>...>] is the nested product
      [tuple F Types], and [std::get<Id>] selects by a typed index [member].
    - A reference is a value of type [reference]; reading or writing through
      it, and taking an element out of range (undefined behaviour in C++),
      are partial and return [option]. *)

From Stdlib Require Import String Strings.Byte SpecFloat.
From Stdlib Require Import ZArith List Lia Bool Sorted DecimalString.
Import ListNotations.

Set Implicit Arguments.
Open Scope Z_scope.

(** ** Machine integers *)

Definition size_t_modulus : Z := 2 ^ 64.
Definition unsigned_modulus : Z := 2 ^ 32.

(** Conversion of an integer to [std::size_t]. *)
Definition to_size_t (z : Z) : Z := z mod size_t_modulus.

(** Conversion of an integer to [unsigned], as at the call of [doResize]. *)
Definition to_unsigned (z : Z) : Z := z mod unsigned_modulus.

(** [std::numeric_limits<std::size_t>::max()]. *)
Definition size_t_max : Z := size_t_modulus - 1.

(** [PTRDIFF_MAX]: no [std::vector] has a [max_size()] above it. *)
Definition ptrdiff_max : Z := 2 ^ 63 - 1.

(** [std::numeric_limits<std::size_t>::infinity()]: [std::size_t] has no
    representation of infinity ([has_infinity] is [false]), and the member
    then returns [std::size_t()], which is zero. *)
Definition size_t_infinity : Z := 0.

(** ** References and [std::vector] *)

(** What a [T&] can designate: an element of the vector it was taken from, or
    an object of the caller, given by its name and the value it holds. *)
Inductive reference (T : Type) : Type :=
| Element (position_ : Z)
| Object (x : string) (v : T).

Arguments Element {T} position_.
Arguments Object {T} x v.

Module Vector.
Section Vector.
Variable T : Type.

Definition vector : Type := list T.

Definition size (c_ : vector) : Z := Z.of_nat (length c_).

(** [c_.resize(size_)]: keeps the first [size_] elements and appends
    value-initialised ones ([d]) up to [size_]. *)
Definition resize (c_ : vector) (size_ : Z) (d : T) : vector :=
  firstn (Z.to_nat size_) c_ ++ repeat d (Z.to_nat size_ - length c_).

(** [c_.resize(size_)] with the length check of the library: for a size
    above [max_size()] the call throws [std::length_error] and no vector of
    that size exists afterwards.  [max_size()] depends on the element type
    (it is [ptrdiff_max] divided by the size of an element) and is a
    parameter here. *)
Definition resize_checked (max_size : Z) (c_ : vector) (size_ : Z) (d : T)
  : option vector :=
  if size_ <=? max_size then Some (resize c_ size_ d) else None.

Definition push_back (c_ : vector) (val_ : T) : vector := c_ ++ [val_].

(** [c_[position_]], a reference to the element; out of range it is
    undefined. *)
Definition index (c_ : vector) (position_ : Z) : option (reference T) :=
  if (0 <=? position_) && (position_ <? size c_)
  then Some (Element position_) else None.

(** Reading through a reference taken from [c_]. *)
Definition load (c_ : vector) (r : reference T) : option T :=
  match r with
  | Element p => if 0 <=? p then nth_error c_ (Z.to_nat p) else None
  | Object _ v => Some v
  end.

Fixpoint update (c_ : vector) (n : nat) (v : T) : vector :=
  match c_, n with
  | [], _ => []
  | _ :: c', O => v :: c'
  | a :: c', S n' => a :: update c' n' v
  end.

(** Writing through a reference taken from [c_]; a write to an object of
    the caller leaves the vector as it is. *)
Definition store (c_ : vector) (r : reference T) (v : T) : option vector :=
  match r with
  | Element p =>
      if (0 <=? p) && (p <? size c_)
      then Some (update c_ (Z.to_nat p) v) else None
  | Object _ _ => Some c_
  end.
End Vector.
End Vector.

(** [MyVector<T>] is [std::vector<T, std::allocator<T>>]. *)
Definition MyVector (T : Type) : Type := Vector.vector T.

(** ** [ref_wrap] *)

Section RefWrap.
Variable T : Type.

(** [std::reference_wrapper<T>] holds what [get()] returns. *)
Record ref_wrap : Type := { get : reference T }.

(** [ref_wrap(T& other_)]. *)
Definition ref_wrap_ctor (other_ : reference T) : ref_wrap :=
  {| get := other_ |}.

(** [operator T&() const]: [this->get()], read in the vector [c_] the
    proxy was built on. *)
Definition ref_wrap_conv (c_ : MyVector T) (this : ref_wrap) : option T :=
  Vector.load c_ (get this).

(** [void operator=(T&& other_)]: [this->get() = other_]. *)
Definition ref_wrap_assign (c_ : MyVector T) (this : ref_wrap) (other_ : T)
  : option (MyVector T) :=
  Vector.store c_ (get this) other_.

(** The copy and move assignment the compiler generates for [ref_wrap]: that
    of [std::reference_wrapper], which rebinds the reference. *)
Definition ref_wrap_copy_assign (this other_ : ref_wrap) : ref_wrap :=
  {| get := get other_ |}.

(** The right-hand side of an assignment, by value category. *)
Inductive operand : Type :=
| Rvalue (v : T)
| Lvalue (x : string) (v : T).

Definition operand_value (e : operand) : T :=
  match e with Rvalue v => v | Lvalue _ v => v end.

(** [proxy = e] for a proxy of type [ref_wrap<T>] and [e] of type [T].
    [operator=(T&&)] takes an rvalue only.  For an lvalue the one viable
    candidate is the generated assignment, its argument converted by
    [ref_wrap(T&)].  The result is the vector and the proxy afterwards. *)
Definition ref_wrap_assign_expr (c_ : MyVector T) (proxy : ref_wrap)
    (e : operand) : option (MyVector T * ref_wrap) :=
  match e with
  | Rvalue v =>
      match ref_wrap_assign c_ proxy v with
      | Some c' => Some (c', proxy)
      | None => None
      end
  | Lvalue x v =>
      Some (c_, ref_wrap_copy_assign proxy (ref_wrap_ctor (Object x v)))
  end.
End RefWrap.

Arguments Rvalue {T} v.
Arguments Lvalue {T} x v.

(** ** Parameter packs and [std::tuple] *)

Section Tuple.
Variable ty : Type.

Fixpoint tuple (F : ty -> Type) (Types : list ty) : Type :=
  match Types with
  | [] => unit
  | T :: Ts => (F T * tuple F Ts)%type
  end.

(** A valid index of [std::get] into a tuple over [Types], with the type of
    the selected component. *)
Inductive member (T : ty) : list ty -> Type :=
| Here : forall Ts, member T (T :: Ts)
| There : forall U Ts, member T Ts -> member T (U :: Ts).

(** The number [Id] of an index. *)
Fixpoint member_index {T Types} (k : member T Types) : nat :=
  match k with
  | Here _ _ => O
  | There _ k' => S (member_index k')
  end.

(** [std::get<Id>(tp)]. *)
Fixpoint tget {F : ty -> Type} {T Types} (k : member T Types)
  : tuple F Types -> F T :=
  match k in member _ Ts return tuple F Ts -> F T with
  | Here _ _ => fun tp => fst tp
  | There _ k' => fun tp => tget k' (snd tp)
  end.

(** [std::get<Id>(tp) = v]. *)
Fixpoint tset {F : ty -> Type} {T Types} (k : member T Types)
  : F T -> tuple F Types -> tuple F Types :=
  match k in member _ Ts return F T -> tuple F Ts -> tuple F Ts with
  | Here _ _ => fun v tp => (v, snd tp)
  | There _ k' => fun v tp => (fst tp, tset k' v (snd tp))
  end.
End Tuple.

Arguments Here {ty T Ts}.
Arguments There {ty T U Ts} _.

(** ** [DataLayout] and the two specialisations of [DataLayoutPolicy] *)

Inductive DataLayout : Type :=
| SoA (* structure of arrays *)
| AoS (* array of structures *).

Section Policy.
Variable ty : Type.
Variable den : ty -> Type.

(** [T()], the value a vector gives to the elements [resize] adds. *)
Variable init : forall T : ty, den T.

(** [TItem<Types...>], a record. *)
Definition TItem (Types : list ty) : Type := tuple den Types.

(** [TItem<Types...>()]: every component value-initialised. *)
Fixpoint TItem_init (Types : list ty) : TItem Types :=
  match Types with
  | [] => tt
  | T :: Ts => (init T, TItem_init Ts)
  end.

(** *** [DataLayoutPolicy<Container, DataLayout::AoS, TItem<Types...>>] *)

(** [type = Container<TItem<Types...>>]. *)
Definition AoS_type (Types : list ty) : Type := MyVector (TItem Types).

(** [value_type = TItem<Types...>&]. *)
Definition AoS_value_type (Types : list ty) : Type :=
  reference (TItem Types).

Definition AoS_get {Types} (c_ : AoS_type Types) (position_ : Z)
  : option (AoS_value_type Types) :=
  Vector.index c_ position_.

Definition AoS_resize {Types} (c_ : AoS_type Types) (size_ : Z)
  : AoS_type Types :=
  Vector.resize c_ size_ (TItem_init Types).

(** [resize] with the length check of [c_.resize]. *)
Definition AoS_resize_checked {Types} (max_size : Z) (c_ : AoS_type Types)
    (size_ : Z) : option (AoS_type Types) :=
  Vector.resize_checked max_size c_ size_ (TItem_init Types).

Definition AoS_push_back {Types} (c_ : AoS_type Types) (val_ : TItem Types)
  : AoS_type Types :=
  Vector.push_back c_ val_.

Definition AoS_size {Types} (c_ : AoS_type Types) : Z := Vector.size c_.

(** *** [DataLayoutPolicy<Container, DataLayout::SoA, TItem<Types...>>] *)

(** [type = std::tuple<Container<Types>...>]. *)
Definition SoA_type (Types : list ty) : Type :=
  tuple (fun T => MyVector (den T)) Types.

(** [value_type = TItem<ref_wrap<Types>...>]. *)
Definition SoA_value_type (Types : list ty) : Type :=
  tuple (fun T => ref_wrap (den T)) Types.

(** [value_type{ ref_wrap( std::get<Ids>( c_ )[ position_ ] )... }]. *)
Fixpoint doGet (Types : list ty)
  : SoA_type Types -> Z -> option (SoA_value_type Types) :=
  match Types with
  | [] => fun _ _ => Some tt
  | T :: Ts => fun c_ position_ =>
      match Vector.index (fst c_) position_ with
      | Some r =>
          match doGet Ts (snd c_) position_ with
          | Some rest => Some (ref_wrap_ctor r, rest)
          | None => None
          end
      | None => None
      end
  end.

(** [( std::get<Ids>( c_ ).resize( size_ ), ... )]. *)
Fixpoint doResize (Types : list ty) : SoA_type Types -> Z -> SoA_type Types :=
  match Types with
  | [] => fun _ _ => tt
  | T :: Ts => fun c_ size_ =>
      (Vector.resize (fst c_) size_ (init T), doResize Ts (snd c_) size_)
  end.

(** [( std::get<Ids>( c_ ).push_back( std::get<Ids>( val_ ) ), ... )]. *)
Fixpoint doPushBack (Types : list ty)
  : SoA_type Types -> TItem Types -> SoA_type Types :=
  match Types with
  | [] => fun _ _ => tt
  | T :: Ts => fun c_ val_ =>
      (Vector.push_back (fst c_) (fst val_),
       doPushBack Ts (snd c_) (snd val_))
  end.

Definition SoA_get {Types} (c_ : SoA_type Types) (position_ : Z)
  : option (SoA_value_type Types) :=
  doGet Types c_ position_.

(** [doResize] takes its size as [unsigned]: the [std::size_t] argument is
    converted at the call. *)
Definition SoA_resize {Types} (c_ : SoA_type Types) (size_ : Z)
  : SoA_type Types :=
  doResize Types c_ (to_unsigned size_).

Definition SoA_push_back {Types} (c_ : SoA_type Types) (val_ : TItem Types)
  : SoA_type Types :=
  doPushBack Types c_ val_.

(** [std::get<0>( c_ ).size()]: there is a first array. *)
Definition SoA_size {T0 Ts} (c_ : SoA_type (T0 :: Ts)) : Z :=
  Vector.size (fst c_).

(** The default-constructed [std::tuple<Container<Types>...>]. *)
Fixpoint SoA_empty (Types : list ty) : SoA_type Types :=
  match Types with
  | [] => tt
  | T :: Ts => (@nil (den T), SoA_empty Ts)
  end.

(** The lengths of the per-field arrays, in field order. *)
Fixpoint field_sizes (Types : list ty) : SoA_type Types -> list Z :=
  match Types with
  | [] => fun _ => []
  | T :: Ts => fun c_ => Vector.size (fst c_) :: field_sizes Ts (snd c_)
  end.

(** The view [doGet] builds at [position_]: every proxy on the element
  [position_] of its array. *)
Fixpoint fresh_view (Types : list ty) (position_ : Z) : SoA_value_type Types :=
match Types with
| [] => tt
| T :: Ts => (ref_wrap_ctor (Element position_), fresh_view Ts position_)
end.

(** The per-field arrays that hold the records of [l], field by field. *)
Fixpoint columns_of (Types : list ty) : list (TItem Types) -> SoA_type Types :=
match Types with
| [] => fun _ => tt
| T :: Ts => fun l => (map fst l, columns_of Ts (map snd l))
end.

(** *** Use of an element view *)

(** Reading every field of a view ([operator T&()] of each proxy). *)
Fixpoint SoA_read (Types : list ty)
  : SoA_type Types -> SoA_value_type Types -> option (TItem Types) :=
  match Types with
  | [] => fun _ _ => Some tt
  | T :: Ts => fun c_ view =>
      match ref_wrap_conv (fst c_) (fst view) with
      | Some v =>
          match SoA_read Ts (snd c_) (snd view) with
          | Some rest => Some (v, rest)
          | None => None
          end
      | None => None
      end
  end.

Definition AoS_read {Types} (c_ : AoS_type Types)
    (view : AoS_value_type Types) : option (TItem Types) :=
  Vector.load c_ view.

(** [std::get<Id>(view)], read. *)
Definition AoS_read_field {Types} (c_ : AoS_type Types)
    (view : AoS_value_type Types) {T} (k : member T Types) : option (den T) :=
  match Vector.load c_ view with
  | Some item => Some (tget k item)
  | None => None
  end.

Definition SoA_read_field {Types} (c_ : SoA_type Types)
    (view : SoA_value_type Types) {T} (k : member T Types) : option (den T) :=
  ref_wrap_conv (tget k c_) (tget k view).

(** [std::get<Id>(view) = e]: on a record the component is a [T&] and takes
    the value of [e]; on a view of proxies it is the assignment to a
    [ref_wrap].  The result is the storage and the view afterwards. *)
Definition AoS_assign_field {Types} (c_ : AoS_type Types)
    (view : AoS_value_type Types) {T} (k : member T Types)
    (e : operand (den T)) : option (AoS_type Types * AoS_value_type Types) :=
  match Vector.load c_ view with
  | Some item =>
      match Vector.store c_ view (tset k (operand_value e) item) with
      | Some c' => Some (c', view)
      | None => None
      end
  | None => None
  end.

Definition SoA_assign_field {Types} (c_ : SoA_type Types)
    (view : SoA_value_type Types) {T} (k : member T Types)
    (e : operand (den T)) : option (SoA_type Types * SoA_value_type Types) :=
  match ref_wrap_assign_expr (tget k c_) (tget k view) e with
  | Some (column, proxy) => Some (tset k column c_, tset k proxy view)
  | None => None
  end.
End Policy.

(** ** [Iterator] *)

(** A container is designated by its address; [None] is [nullptr]. *)
Record Iterator : Type := {
  mContainer : option nat;
  mIterPosition : Z
}.

(** The default member initialisers of the class.  The one constructor
    initialises both members itself. *)
Definition Iterator_default_members : Iterator :=
  {| mContainer := None; mIterPosition := size_t_infinity |}.

(** [Iterator( TTContainer* container_, std::size_t position_ = 0 )]. *)
Definition Iterator_ctor (container_ : option nat) (position_ : Z) : Iterator :=
  {| mContainer := container_; mIterPosition := position_ |}.

(** The body of [operator=( Iterator const& other_ )]: the position is
    copied, the assignment of [mContainer] is commented out in the source.
    This is the iterator the body's one statement leaves; the call is
    [Iterator_assign_call]. *)
Definition Iterator_assign (this other_ : Iterator) : Iterator :=
  {| mContainer := mContainer this; mIterPosition := mIterPosition other_ |}.

(** The call [this = other_] of [Iterator& operator=( Iterator const& )]:
    after the body, control reaches the end of the function without a
    [return] statement, which is undefined for a function that returns
    [Iterator&]. *)
Definition Iterator_assign_call (this other_ : Iterator) : option Iterator :=
  let _ := Iterator_assign this other_ in None.

(** [operator!=] and [operator==]. *)
Definition Iterator_ne (lhs rhs : Iterator) : bool :=
  negb (mIterPosition lhs =? mIterPosition rhs).

Definition Iterator_eq (lhs rhs : Iterator) : bool :=
  negb (Iterator_ne lhs rhs).

(** [operator bool() const]: the comparison with the sentinel is evaluated
    and dropped, and control leaves the function without a value. *)
Definition Iterator_bool (this : Iterator) : option bool :=
  let _ := negb (mIterPosition this =? size_t_infinity) in None.

(** The body of [operator=( std::nullptr_t const& )]: the iterator its one
    statement leaves; the call is [Iterator_assign_null_call]. *)
Definition Iterator_assign_null (this : Iterator) : Iterator :=
  {| mContainer := mContainer this; mIterPosition := size_t_infinity |}.

(** The call [this = nullptr]: as for the copy assignment, the function is
    declared to return [Iterator&] and has no [return] statement. *)
Definition Iterator_assign_null_call (this : Iterator) : option Iterator :=
  let _ := Iterator_assign_null this in None.

(** [operator+=] and [operator-=], in [std::size_t] arithmetic. *)
Definition Iterator_add_assign (this : Iterator) (size_ : Z) : Iterator :=
  {| mContainer := mContainer this;
     mIterPosition := to_size_t (mIterPosition this + size_) |}.

Definition Iterator_sub_assign (this : Iterator) (size_ : Z) : Iterator :=
  {| mContainer := mContainer this;
     mIterPosition := to_size_t (mIterPosition this - size_) |}.

(** [operator++] and [operator--]. *)
Definition Iterator_incr (this : Iterator) : Iterator :=
  Iterator_add_assign this 1.

Definition Iterator_decr (this : Iterator) : Iterator :=
  Iterator_sub_assign this 1.

(** ** [BaseContainer] *)

Section BaseContainer.
Variable ty : Type.
Variable den : ty -> Type.
Variable init : forall T : ty, den T.

(** The record type has a first field: [SoA] reads its size there. *)
Variable T0 : ty.
Variable Ts : list ty.
Local Abbreviation Types := (T0 :: Ts).

(** [policy_t::type], [policy_t::value_type] and the four operations of
    the policy selected by [TDataLayout]. *)
Definition policy_type (L : DataLayout) : Type :=
  match L with
  | AoS => AoS_type den Types
  | SoA => SoA_type den Types
  end.

Definition policy_value_type (L : DataLayout) : Type :=
  match L with
  | AoS => AoS_value_type den Types
  | SoA => SoA_value_type den Types
  end.

Definition policy_get (L : DataLayout)
  : policy_type L -> Z -> option (policy_value_type L) :=
  match L with
  | AoS => @AoS_get ty den Types
  | SoA => @SoA_get ty den Types
  end.

Definition policy_resize (L : DataLayout)
  : policy_type L -> Z -> policy_type L :=
  match L with
  | AoS => @AoS_resize ty den init Types
  | SoA => @SoA_resize ty den init Types
  end.

Definition policy_push_back (L : DataLayout)
  : policy_type L -> TItem den Types -> policy_type L :=
  match L with
  | AoS => @AoS_push_back ty den Types
  | SoA => @SoA_push_back ty den Types
  end.

Definition policy_size (L : DataLayout) : policy_type L -> Z :=
  match L with
  | AoS => @AoS_size ty den Types
  | SoA => @SoA_size ty den T0 Ts
  end.

(** The default-constructed [mValues]. *)
Definition policy_empty (L : DataLayout) : policy_type L :=
  match L with
  | AoS => @nil (TItem den Types)
  | SoA => SoA_empty den Types
  end.

Record BaseContainer (L : DataLayout) : Type := {
  mValues : policy_type L
}.

Definition resize {L} (this : BaseContainer L) (size_ : Z)
  : BaseContainer L :=
  {| mValues := policy_resize L (mValues this) size_ |}.

(** [resize] of an [AoS] container with the length check of the vector. *)
Definition resize_AoS_checked (max_size : Z) (this : BaseContainer AoS)
    (size_ : Z) : option (BaseContainer AoS) :=
  match @AoS_resize_checked ty den init Types max_size (mValues this) size_
  with
  | Some s => Some (Build_BaseContainer AoS s)
  | None => None
  end.

(** [BaseContainer( size_t size_ ){ resize(size_); }]. *)
Definition BaseContainer_ctor (L : DataLayout) (size_ : Z)
  : BaseContainer L :=
  resize {| mValues := policy_empty L |} size_.

Definition push_back {L} (this : BaseContainer L) (val : TItem den Types)
  : BaseContainer L :=
  {| mValues := policy_push_back L (mValues this) val |}.

Definition size {L} (this : BaseContainer L) : Z :=
  policy_size L (mValues this).

(** [operator[]( std::size_t position_ )]. *)
Definition index {L} (this : BaseContainer L) (position_ : Z)
  : option (policy_value_type L) :=
  policy_get L (mValues this) position_.

(** [begin()] and [end()] of the container at address [this]. *)
Definition begin (this : nat) : Iterator := Iterator_ctor (Some this) 0.

Definition end_ {L} (this : nat) (c : BaseContainer L) : Iterator :=
  Iterator_ctor (Some this) (size c).

(** [Iterator::operator*]: the element at [mIterPosition] of the container
    [mContainer] points to, the containers
    in memory given by address. *)
Definition Iterator_deref {L} (heap : list (BaseContainer L))
    (this : Iterator) : option (policy_value_type L) :=
  match mContainer this with
  | Some a =>
      match nth_error heap a with
      | Some c => index c (mIterPosition this)
      | None => None
      end
  | None => None
  end.

(** The statements [this = other_; *this]. *)
Definition assign_then_deref {L} (heap : list (BaseContainer L))
    (this other_ : Iterator) : option (policy_value_type L) :=
  match Iterator_assign_call this other_ with
  | Some this' => Iterator_deref heap this'
  | None => None
  end.

(** *** Element views *)

Definition view_read {L} : BaseContainer L -> policy_value_type L ->
                         option (TItem den Types) :=
match L return BaseContainer L -> policy_value_type L ->
               option (TItem den Types) with
| AoS => fun c view => @AoS_read ty den Types (mValues c) view
| SoA => fun c view => SoA_read den Types (mValues c) view
end.

Definition view_read_field {L} : BaseContainer L -> policy_value_type L ->
  forall T, member T Types -> option (den T) :=
match L return BaseContainer L -> policy_value_type L ->
               forall T, member T Types -> option (den T) with
| AoS => fun c view T k => @AoS_read_field ty den Types (mValues c) view T k
| SoA => fun c view T k => @SoA_read_field ty den Types (mValues c) view T k
end.

Definition view_assign_field {L} : BaseContainer L -> policy_value_type L ->
  forall T, member T Types -> operand (den T) ->
  option (BaseContainer L * policy_value_type L) :=
match L return BaseContainer L -> policy_value_type L ->
               forall T, member T Types -> operand (den T) ->
               option (BaseContainer L * policy_value_type L) with
| AoS => fun c view T k e =>
    match @AoS_assign_field ty den Types (mValues c) view T k e with
    | Some (s, view') => Some (Build_BaseContainer AoS s, view')
    | None => None
    end
| SoA => fun c view T k e =>
    match @SoA_assign_field ty den Types (mValues c) view T k e with
    | Some (s, view') => Some (Build_BaseContainer SoA s, view')
    | None => None
    end
end.

(** What [c[position_]] shows: the record read through a fresh view. *)
Definition read_at {L} (c : BaseContainer L) (position_ : Z)
  : option (TItem den Types) :=
  match index c position_ with
  | Some view => view_read c view
  | None => None
  end.

(** The value of [std::get<Id>( c[position_] )]. *)
Definition read_field_at {L} (c : BaseContainer L) (position_ : Z)
    {T} (k : member T Types) : option (den T) :=
  match index c position_ with
  | Some view => view_read_field c view k
  | None => None
  end.

(** The statement [std::get<Id>( c[position_] ) = e;].  The result is the
    container afterwards and the temporary view as the assignment left
    it. *)
Definition assign_field_at {L} (c : BaseContainer L) (position_ : Z)
    {T} (k : member T Types) (e : operand (den T))
  : option (BaseContainer L * policy_value_type L) :=
  match index c position_ with
  | Some view => view_assign_field c view k e
  | None => None
  end.

(** *** Iteration *)

(** The positions [0 .. n-1]. *)
Definition positions (n : Z) : list Z :=
  map Z.of_nat (seq 0 (Z.to_nat n)).

(** [for (it = begin_; it != end_; ++it) use( *it );], with the position and
    the result of every [operator*] recorded in order.  [None]: out of fuel. *)
Fixpoint range_for {L} (fuel : nat) (heap : list (BaseContainer L))
    (begin_ end_ : Iterator)
    (visited : list (Z * option (policy_value_type L)))
  : option (list (Z * option (policy_value_type L))) :=
  match fuel with
  | O => None
  | S fuel' =>
      if Iterator_ne begin_ end_
      then range_for fuel' heap (Iterator_incr begin_) end_
             (visited ++ [(mIterPosition begin_, Iterator_deref heap begin_)])
      else Some visited
  end.

(** *** Sequences of operations *)

Inductive call : Type :=
| Call_push_back (val : TItem den Types)
| Call_resize (size_ : Z).

Definition exec {L} (c : BaseContainer L) (o : call) : BaseContainer L :=
  match o with
  | Call_push_back val => push_back c val
  | Call_resize size_ => resize c size_
  end.

Definition run {L} (c : BaseContainer L) (calls : list call)
  : BaseContainer L :=
  fold_left exec calls c.

Inductive statement : Type :=
| Do (o : call)
| Assign (position_ : Z) (T : ty) (k : member T Types) (e : operand (den T)).

(** One statement; [None] when it indexes out of range. *)
Definition step {L} (c : BaseContainer L) (s : statement)
  : option (BaseContainer L) :=
  match s with
  | Do o => Some (exec c o)
  | Assign position_ k e =>
      match assign_field_at c position_ k e with
      | Some (c', _) => Some c'
      | None => None
      end
  end.

(** The records a client sees at positions [0 .. size()-1]. *)
Definition observe {L} (c : BaseContainer L)
  : list (option (TItem den Types)) :=
  map (read_at c) (positions (size c)).

(** The containers after each statement of a program, while it is
    defined. *)
Fixpoint states {L} (c : BaseContainer L) (prog : list statement)
  : list (BaseContainer L) :=
  match prog with
  | [] => []
  | s :: prog' =>
      match step c s with
      | Some c' => c' :: states c' prog'
      | None => []
      end
  end.

(** The statements on which the two layouts are compared: a [resize] to a
  size that [unsigned] holds, a [push_back], the assignment of an rvalue. *)
Definition portable (s : statement) : Prop :=
match s with
| Do (Call_resize size_) => 0 <= size_ < unsigned_modulus
| Do (Call_push_back _) => True
| Assign _ _ (Rvalue _) => True
| Assign _ _ (Lvalue _ _) => False
end.

(** An [AoS] and a [SoA] container with the same records. *)
Definition same_records (a : BaseContainer AoS) (s : BaseContainer SoA)
: Prop :=
mValues s = columns_of den Types (mValues a).

(** The [SoA] invariant: every per-field array as long as [size()] says. *)
Definition consistent {L} : BaseContainer L -> Prop :=
  match L with
  | AoS => fun _ => True
  | SoA => fun c =>
      Forall (fun n => n = size c) (field_sizes den Types (mValues c))
  end.
(** *** Writing through an iterator *)

(** The statement [std::get<Id>( *it ) = e;]: the view [operator*] returns is
    assigned through, and the container the iterator points to is the one
    that changes in memory. *)
Definition deref_assign {L} (heap : list (BaseContainer L)) (it : Iterator)
    {T} (k : member T Types) (e : operand (den T))
  : option (list (BaseContainer L)) :=
  match mContainer it with
  | Some a =>
      match nth_error heap a, Iterator_deref heap it with
      | Some c, Some view =>
          match view_assign_field c view k e with
          | Some (c', _) => Some (Vector.update heap a c')
          | None => None
          end
      | _, _ => None
      end
  | None => None
  end.

(** [for (auto&& i : container) body;] as the language expands it: [begin_]
    and [end_] are taken once, the body acts on memory through the iterator,
    then [++begin_].  [None]: out of fuel, or the body is undefined. *)
Fixpoint range_for_each {L} (fuel : nat)
    (body : list (BaseContainer L) -> Iterator ->
            option (list (BaseContainer L)))
    (heap : list (BaseContainer L)) (begin_ end_ : Iterator)
  : option (list (BaseContainer L)) :=
  match fuel with
  | O => None
  | S fuel' =>
      if Iterator_ne begin_ end_
      then match body heap begin_ with
           | Some heap' =>
               range_for_each fuel' body heap' (Iterator_incr begin_) end_
           | None => None
           end
      else Some heap
  end.

End BaseContainer.


(** ** The record type of [main]: [Item<double, char, std::string, Pad>] *)

Module Demo.

Inductive Component : Type :=
| eMyDouble
| eMyChar
| eMyString
| eMyPadding.

(** [struct Pad{ char mPad[1500]; };] *)
Record Pad : Type := { mPad : list byte }.

Definition field_type (c : Component) : Type :=
  match c with
  | eMyDouble => spec_float
  | eMyChar => byte
  | eMyString => string
  | eMyPadding => Pad
  end.

(** Value initialisation: [0.0], ['\0'], the empty string, 1500 zero bytes. *)
Definition value_init (c : Component) : field_type c :=
  match c with
  | eMyDouble => S754_zero false
  | eMyChar => x00
  | eMyString => EmptyString
  | eMyPadding => {| mPad := repeat x00 1500 |}
  end.

Definition Rest : list Component := [eMyChar; eMyString; eMyPadding].

(** [Item<double, char, std::string, Pad>]. *)
Definition Item : Type := TItem field_type (eMyDouble :: Rest).

(** The accessors [myDouble()], [myChar()] and [myString()] of [Item]:
    [std::get] at the named component. *)
Definition myDouble : member eMyDouble (eMyDouble :: Rest) := Here.
Definition myChar : member eMyChar (eMyDouble :: Rest) := There Here.
Definition myString : member eMyString (eMyDouble :: Rest) :=
  There (There Here).

(** [BaseContainer<MyVector, L, Item<double, char, std::string, Pad>>]. *)
Definition container_t (L : DataLayout) : Type :=
  BaseContainer field_type eMyDouble Rest L.

Definition container_ (L : DataLayout) (size_ : Z) : container_t L :=
  BaseContainer_ctor field_type value_init eMyDouble Rest L size_.

(** [BaseContainer<MyVector, L, Item<char>>( size_ )]: records of one byte. *)
Definition char_container (L : DataLayout) (size_ : Z)
  : BaseContainer field_type eMyChar [] L :=
  BaseContainer_ctor field_type value_init eMyChar [] L size_.

(** The doubles [2.0] and [1.5], and a record holding [1.5] and [7]. *)
Definition two : spec_float := S754_finite false 1 1.
Definition one_and_a_half : spec_float := S754_finite false 3 (-1).

Definition item_1_5_7 : Item :=
  (one_and_a_half, (x07, (EmptyString, ({| mPad := repeat x00 1500 |}, tt)))).

(** [double x = 2.0; container_[0].myDouble() = x;] against the same with
    the literal on the right. *)
Definition assign_lvalue : statement field_type eMyDouble Rest :=
  Assign field_type 0 myDouble (Lvalue "x" two).

Definition assign_rvalue : statement field_type eMyDouble Rest :=
  Assign field_type 0 myDouble (Rvalue two).

(** [static_cast<double>(argc)]: the binary64 number nearest to the
    integer. *)
Definition double_of_int (n : Z) : spec_float :=
  binary_normalize 53 1024 n 0 false.

(** [std::cout << n] for a [std::size_t]: the decimal digits. *)
Definition print_size_t (n : Z) : string :=
  NilZero.string_of_uint (N.to_uint (Z.to_N n)).

(** [main]: a [SoA] container of 1000 records is built, its size printed, and
    [myDouble()] of every record assigned [static_cast<double>(argc)] in a
    range-based loop.  The result is the text written to [std::cout] and the
    container at the end. *)
Definition main (fuel : nat) (argc : Z) : option (string * container_t SoA) :=
  let c := container_ SoA 1000 in
  let out :=
    ("container size " ++ print_size_t (size c) ++ " "
     ++ String (Ascii.ascii_of_nat 10) EmptyString)%string in
  match
    range_for_each fuel
      (fun heap i => deref_assign heap i myDouble (Rvalue (double_of_int argc)))
      [c] (begin 0) (end_ 0 c)
  with
  | Some [c'] => Some (out, c')
  | _ => None
  end.

End Demo.


(** * Properties *)

(** ** Machine integers *)

Lemma to_unsigned_range (z : Z) : 0 <= to_unsigned z < unsigned_modulus.
Proof. unfold to_unsigned. apply Z.mod_pos_bound. reflexivity. Qed.

Lemma to_unsigned_small (z : Z) :
  0 <= z < unsigned_modulus -> to_unsigned z = z.
Proof. intros H. unfold to_unsigned. now apply Z.mod_small. Qed.

Lemma to_size_t_small (z : Z) : 0 <= z < size_t_modulus -> to_size_t z = z.
Proof. intros H. unfold to_size_t. now apply Z.mod_small. Qed.

Lemma unsigned_modulus_pos : 0 < unsigned_modulus.
Proof. reflexivity. Qed.

(** ** [std::vector] *)

Section VectorFacts.
Variable T : Type.
Implicit Types (c : Vector.vector T) (v d : T).

Lemma size_nonneg c : 0 <= Vector.size c.
Proof. unfold Vector.size. lia. Qed.

Lemma size_resize c n d : Vector.size (Vector.resize c n d) = Z.max 0 n.
Proof.
  unfold Vector.size, Vector.resize.
  rewrite length_app, length_firstn, repeat_length. lia.
Qed.

Lemma size_push_back c v :
  Vector.size (Vector.push_back c v) = Vector.size c + 1.
Proof.
  unfold Vector.size, Vector.push_back. rewrite length_app. simpl. lia.
Qed.

Lemma index_in_range c p :
  0 <= p < Vector.size c -> Vector.index c p = Some (Element p).
Proof.
  intros [H0 H1]. unfold Vector.index.
  apply Z.leb_le in H0. apply Z.ltb_lt in H1. now rewrite H0, H1.
Qed.

Lemma index_out_of_range c p :
  ~ 0 <= p < Vector.size c -> Vector.index c p = None.
Proof.
  intros H. unfold Vector.index.
  destruct (0 <=? p) eqn:E0; [|reflexivity].
  destruct (p <? Vector.size c) eqn:E1; [|reflexivity].
  apply Z.leb_le in E0. apply Z.ltb_lt in E1. lia.
Qed.

Lemma load_push_back_last c v :
  Vector.load (Vector.push_back c v) (Element (Vector.size c)) = Some v.
Proof.
  unfold Vector.load, Vector.push_back, Vector.size.
  destruct (0 <=? Z.of_nat (length c)) eqn:E; [|apply Z.leb_gt in E; lia].
  rewrite Nat2Z.id, nth_error_app2 by lia.
  now rewrite Nat.sub_diag.
Qed.

Lemma length_update c n v : length (Vector.update c n v) = length c.
Proof.
  revert n. induction c as [|a c IH]; intros [|n]; simpl; auto.
Qed.

Lemma nth_error_update_same c n v :
  (n < length c)%nat -> nth_error (Vector.update c n v) n = Some v.
Proof.
  revert n. induction c as [|a c IH]; intros [|n] H; simpl in *;
    try lia; auto.
  apply IH. lia.
Qed.

Lemma nth_error_update_other c n m v :
  n <> m -> nth_error (Vector.update c n v) m = nth_error c m.
Proof.
  revert n m. induction c as [|a c IH]; intros [|n] [|m] H; simpl;
    try congruence; auto.
Qed.

Lemma size_store c r v c' :
  Vector.store c r v = Some c' -> Vector.size c' = Vector.size c.
Proof.
  destruct r as [p|x w]; simpl.
  - destruct ((0 <=? p) && (p <? Vector.size c)); [|discriminate].
    intros [= <-]. unfold Vector.size. now rewrite length_update.
  - now intros [= <-].
Qed.

Lemma store_in_range c p v :
  0 <= p < Vector.size c ->
  Vector.store c (Element p) v = Some (Vector.update c (Z.to_nat p) v).
Proof.
  intros [H0 H1]. simpl.
  apply Z.leb_le in H0. apply Z.ltb_lt in H1. now rewrite H0, H1.
Qed.

Lemma load_update_same c p v :
  0 <= p < Vector.size c ->
  Vector.load (Vector.update c (Z.to_nat p) v) (Element p) = Some v.
Proof.
  intros [H0 H1]. simpl.
  destruct (0 <=? p) eqn:E; [|apply Z.leb_gt in E; lia].
  apply nth_error_update_same. unfold Vector.size in H1. lia.
Qed.

Lemma load_update_other c p q v :
  0 <= p -> 0 <= q -> p <> q ->
  Vector.load (Vector.update c (Z.to_nat p) v) (Element q) =
  Vector.load c (Element q).
Proof.
  intros Hp Hq Hne. simpl.
  destruct (0 <=? q); [|reflexivity].
  apply nth_error_update_other. lia.
Qed.

Lemma load_in_range c p :
  0 <= p < Vector.size c -> exists v, Vector.load c (Element p) = Some v.
Proof.
  intros [H0 H1]. simpl.
  destruct (0 <=? p) eqn:E; [|apply Z.leb_gt in E; lia].
  destruct (nth_error c (Z.to_nat p)) eqn:N; [eauto|].
  apply nth_error_None in N. unfold Vector.size in H1. lia.
Qed.

End VectorFacts.

(** ** [std::tuple] *)

Section TupleFacts.
Variable ty : Type.
Variable F : ty -> Type.

Lemma tget_tset_same T Types (k : member T Types) (v : F T)
    (tp : tuple F Types) :
  tget k (tset k v tp) = v.
Proof. induction k; simpl; auto. Qed.

Lemma tset_tget_same T Types (k : member T Types) (tp : tuple F Types) :
  tset k (tget k tp) tp = tp.
Proof.
  induction k; simpl.
  - now destruct tp.
  - destruct tp as [a tp]. simpl. now rewrite IHk.
Qed.

End TupleFacts.

(** ** The [SoA] policy *)

Section PolicyFacts.
Variable ty : Type.
Variable den : ty -> Type.
Variable init : forall T : ty, den T.

Local Abbreviation sizes := (field_sizes den).

Lemma field_sizes_empty Types :
  Forall (fun n => n = 0) (sizes Types (SoA_empty den Types)).
Proof. induction Types; simpl; constructor; auto. Qed.

Lemma field_sizes_doResize Types (c_ : SoA_type den Types) (size_ : Z) :
  Forall (fun n => n = Z.max 0 size_)
         (sizes Types (doResize den init Types c_ size_)).
Proof.
  induction Types as [|T Ts IH]; simpl; constructor.
  - apply size_resize.
  - apply IH.
Qed.

Lemma field_sizes_doPushBack Types (c_ : SoA_type den Types)
    (val_ : TItem den Types) :
  sizes Types (doPushBack den Types c_ val_) =
  map (fun n => n + 1) (sizes Types c_).
Proof.
  induction Types as [|T Ts IH]; simpl; [reflexivity|].
  now rewrite size_push_back, IH.
Qed.

Lemma field_size_member Types (c_ : SoA_type den Types) (N : Z) :
  Forall (fun n => n = N) (sizes Types c_) ->
  forall T (k : member T Types), Vector.size (tget k c_) = N.
Proof.
  intros H T k. induction k; simpl in *; inversion H; subst; auto.
Qed.

Lemma field_sizes_tset Types (c_ : SoA_type den Types) T (k : member T Types)
    (column : MyVector (den T)) :
  Vector.size column = Vector.size (tget k c_) ->
  sizes Types (tset k column c_) = sizes Types c_.
Proof.
  intros H. induction k; simpl in *.
  - now rewrite H.
  - f_equal. now apply IHk.
Qed.

Lemma doGet_in_range Types (c_ : SoA_type den Types) (N p : Z) :
  Forall (fun n => n = N) (sizes Types c_) -> 0 <= p < N ->
  doGet den Types c_ p = Some (fresh_view den Types p).
Proof.
  intros H Hp. induction Types as [|T Ts IH]; simpl in *; [reflexivity|].
  inversion H as [|n l Hn Hl]; subst.
  rewrite index_in_range by assumption.
  now rewrite IH.
Qed.

Lemma tget_fresh_view Types T (k : member T Types) (p : Z) :
  tget k (fresh_view den Types p) = ref_wrap_ctor (Element p).
Proof. induction k; simpl; auto. Qed.

Lemma tget_doPushBack Types (c_ : SoA_type den Types) (val_ : TItem den Types)
    T (k : member T Types) :
  tget k (doPushBack den Types c_ val_) =
  Vector.push_back (tget k c_) (tget k val_).
Proof. induction k; simpl; auto. Qed.

Lemma tget_doResize Types (c_ : SoA_type den Types) (size_ : Z)
    T (k : member T Types) :
  tget k (doResize den init Types c_ size_) =
  Vector.resize (tget k c_) size_ (init T).
Proof. induction k; simpl; auto. Qed.

Lemma SoA_read_doPushBack Types (c_ : SoA_type den Types)
    (val_ : TItem den Types) (N : Z) :
  Forall (fun n => n = N) (sizes Types c_) ->
  SoA_read den Types (doPushBack den Types c_ val_) (fresh_view den Types N) =
  Some val_.
Proof.
  intros H. induction Types as [|T Ts IH]; simpl in *.
  - now destruct val_.
  - inversion H as [|n l Hn Hl]; subst.
    destruct val_ as [v rest]. simpl.
    unfold ref_wrap_conv. simpl get.
    rewrite load_push_back_last, IH by assumption. reflexivity.
Qed.

Lemma SoA_read_field_of_read Types (c_ : SoA_type den Types)
    (view : SoA_value_type den Types) (item : TItem den Types) :
  SoA_read den Types c_ view = Some item ->
  forall T (k : member T Types),
    SoA_read_field den c_ view k = Some (tget k item).
Proof.
  intros H T k. unfold SoA_read_field.
  induction k; simpl in *.
  - destruct (ref_wrap_conv (fst c_) (fst view)); [|discriminate].
    destruct (SoA_read den Ts (snd c_) (snd view)); [|discriminate].
    now injection H as <-.
  - destruct (ref_wrap_conv (fst c_) (fst view)); [|discriminate].
    destruct (SoA_read den Ts (snd c_) (snd view)) eqn:E; [|discriminate].
    injection H as <-. simpl. now apply IHk.
Qed.

End PolicyFacts.

(** ** [BaseContainer] *)

Section ContainerFacts.
Variable ty : Type.
Variable den : ty -> Type.
Variable init : forall T : ty, den T.
Variable T0 : ty.
Variable Ts : list ty.

Local Abbreviation Types := (T0 :: Ts).
Local Abbreviation Container := (BaseContainer den T0 Ts).
Local Abbreviation ctor := (BaseContainer_ctor den init T0 Ts).
Local Abbreviation sizes := (field_sizes den Types).

Lemma size_nonneg_container L (c : Container L) : 0 <= size c.
Proof. destruct L; apply size_nonneg. Qed.

Lemma consistent_resize L (c : Container L) (size_ : Z) :
  consistent (resize init c size_).
Proof.
  destruct L; simpl; [|exact I].
  pose proof (field_sizes_doResize den init Types (mValues c)
                (to_unsigned size_))
    as H.
  unfold size, SoA_size; simpl in *.
  inversion H as [|n l Hn Hl]; subst.
  constructor; [reflexivity|].
  now rewrite Hn.
Qed.

Lemma consistent_ctor L (size_ : Z) : consistent (ctor L size_).
Proof. apply consistent_resize. Qed.

Lemma consistent_push_back L (c : Container L) (val : TItem den Types) :
  consistent c -> consistent (push_back c val).
Proof.
  destruct L; simpl; [|auto].
  intros H. unfold size; simpl.
  unfold SoA_push_back, SoA_size in *.
  change (Forall (fun n => n = Vector.size (fst (mValues c)) )
                 (sizes (mValues c))) in H.
  simpl in *. rewrite size_push_back.
  inversion H as [|n l Hn Hl]; subst.
  constructor; [reflexivity|].
  rewrite field_sizes_doPushBack.
  apply Forall_map. revert Hl. apply Forall_impl. intros a ->. reflexivity.
Qed.

Lemma consistent_exec L (c : Container L) (o : call den T0 Ts) :
  consistent c -> consistent (exec init c o).
Proof.
  destruct o; simpl; intros H.
  - now apply consistent_push_back.
  - apply consistent_resize.
Qed.

Lemma consistent_run L (calls : list (call den T0 Ts)) (c : Container L) :
  consistent c -> consistent (run init c calls).
Proof.
  revert c. induction calls as [|o calls IH]; intros c H; simpl; auto.
  apply IH. now apply consistent_exec.
Qed.

Lemma size_resize_AoS (c : Container AoS) (n : Z) :
  0 <= n -> size (resize init c n) = n.
Proof.
  intros H. unfold size, resize; simpl. unfold AoS_size, AoS_resize.
  rewrite size_resize. lia.
Qed.

Lemma size_resize_SoA (c : Container SoA) (n : Z) :
  size (resize init c n) = to_unsigned n.
Proof.
  unfold size, resize; simpl. unfold SoA_size, SoA_resize; simpl.
  rewrite size_resize. pose proof (to_unsigned_range n). lia.
Qed.

Lemma sizes_resize_SoA (c : Container SoA) (n : Z) :
  Forall (fun m => m = to_unsigned n) (sizes (mValues (resize init c n))).
Proof.
  pose proof (consistent_resize c n) as H.
  cbv beta iota delta [consistent] in H.
  now rewrite size_resize_SoA in H.
Qed.

(** Below [2^32] the container has the size it was constructed with, in both
    layouts. *)
Lemma size_ctor_small L (N : Z) :
  0 <= N < unsigned_modulus -> size (ctor L N) = N.
Proof.
  intros H. destruct L.
  - unfold BaseContainer_ctor. rewrite size_resize_SoA.
    now apply to_unsigned_small.
  - apply size_resize_AoS. lia.
Qed.

Lemma index_consistent_SoA (c : Container SoA) (p : Z) :
  consistent c -> 0 <= p < size c ->
  index c p = Some (fresh_view den Types p).
Proof.
  intros H Hp.
  exact (@doGet_in_range ty den Types (mValues c) (size c) p H Hp).
Qed.

(** C2. For a [SoA] container, after construction and any sequence of [resize]
    and [push_back] calls, every per-field array has one and the same length,
    and it is the value of [size()], the length of the first array. *)
Theorem SoA_arrays_have_length_size (size_ : Z)
    (calls : list (call den T0 Ts)) :
  let c := run init (ctor SoA size_) calls in
  Forall (fun n => n = size c) (sizes (mValues c)) /\
  size c = Vector.size (fst (mValues c)).
Proof.
  intros c. split; [|reflexivity].
  apply (@consistent_run SoA calls (ctor SoA size_)).
  apply consistent_ctor.
Qed.

(** C3. In both layouts, [push_back(v)] on a container of size [N] whose
    arrays agree in length gives a container of size [N+1] in which the view
    at position [N] reads as [v], as a record and field by field. *)
Theorem push_back_appends L (c : Container L) (val : TItem den Types) :
  consistent c ->
  size (push_back c val) = size c + 1 /\
  read_at (push_back c val) (size c) = Some val /\
  forall T (k : member T Types),
    read_field_at (push_back c val) (size c) k = Some (tget k val).
Proof.
  intros H. pose proof (size_nonneg_container c) as Hn.
  assert (Hs : size (push_back c val) = size c + 1).
  { destruct L; unfold size; simpl;
      [unfold SoA_size, SoA_push_back; simpl|unfold AoS_size, AoS_push_back];
      apply size_push_back. }
  split; [exact Hs|].
  destruct L.
  - assert (Hi : index (push_back c val) (size c) =
                 Some (fresh_view den Types (size c))).
    { apply index_consistent_SoA; [now apply consistent_push_back|lia]. }
    assert (Hr : SoA_read den Types (mValues (push_back c val))
                   (fresh_view den Types (size c)) = Some val).
    { exact (@SoA_read_doPushBack ty den Types (mValues c) val (size c) H). }
    split.
    + unfold read_at. rewrite Hi. exact Hr.
    + intros T k. unfold read_field_at. rewrite Hi.
      exact (@SoA_read_field_of_read ty den Types _ _ _ Hr T k).
  - assert (Hi : index (push_back c val) (size c) = Some (Element (size c))).
    { apply (@index_in_range _ (mValues (push_back c val)) (size c)).
      change (0 <= size c < size (push_back c val)). lia. }
    assert (Hr : Vector.load (mValues (push_back c val)) (Element (size c)) =
                 Some val).
    { apply load_push_back_last. }
    split.
    + unfold read_at. rewrite Hi. exact Hr.
    + intros T k. unfold read_field_at. rewrite Hi.
      unfold view_read_field, AoS_read_field. now rewrite Hr.
Qed.

Lemma resize_AoS_checked_within (max_size : Z) (c : Container AoS) (n : Z) :
  0 <= n <= max_size ->
  resize_AoS_checked init max_size c n = Some (resize init c n) /\
  size (resize init c n) = n.
Proof.
  intros [H0 H1]. split; [|now apply size_resize_AoS].
  unfold resize_AoS_checked, AoS_resize_checked, Vector.resize_checked.
  apply Z.leb_le in H1. now rewrite H1.
Qed.

Lemma resize_AoS_checked_above (max_size : Z) (c : Container AoS) (n : Z) :
  max_size < n -> resize_AoS_checked init max_size c n = None.
Proof.
  intros H.
  unfold resize_AoS_checked, AoS_resize_checked, Vector.resize_checked.
  apply Z.leb_gt in H. now rewrite H.
Qed.

(** C9. [SoA] passes the size through the [unsigned] parameter of [doResize]:
    after [resize(n)] every per-field array has length [n mod 2^32], so for
    [n >= 2^32] the size differs from [n].  [AoS] resizes to [n] itself
    exactly when [n] is at most the [max_size()] of its vector; above it the
    call throws and leaves no container of size [n]. *)
Theorem SoA_resize_truncates_AoS_resizes_up_to_max_size (c : Container SoA)
    (c' : Container AoS) (max_size n : Z) :
  0 <= n < size_t_modulus ->
  Forall (fun m => m = n mod 2 ^ 32) (sizes (mValues (resize init c n))) /\
  size (resize init c n) = n mod 2 ^ 32 /\
  (2 ^ 32 <= n -> size (resize init c n) <> n) /\
  (n <= max_size ->
   exists c'',
     resize_AoS_checked init max_size c' n = Some c'' /\ size c'' = n) /\
  (max_size < n -> resize_AoS_checked init max_size c' n = None).
Proof.
  intros Hn. split; [|split; [|split; [|split]]].
  - apply sizes_resize_SoA.
  - apply size_resize_SoA.
  - intros Hbig. rewrite size_resize_SoA.
    pose proof (to_unsigned_range n) as Hr.
    unfold unsigned_modulus in Hr. lia.
  - intros Hmax. exists (resize init c' n).
    apply resize_AoS_checked_within. lia.
  - apply resize_AoS_checked_above.
Qed.

End ContainerFacts.

(** ** Assignment through an element view *)

Section AssignFacts.
Variable ty : Type.
Variable den : ty -> Type.
Variable init : forall T : ty, den T.
Variable T0 : ty.
Variable Ts : list ty.

Local Abbreviation Types := (T0 :: Ts).
Local Abbreviation Container := (BaseContainer den T0 Ts).
Local Abbreviation sizes := (field_sizes den Types).

(** The [SoA] storage after a write of [v] at element [i] of field [k]. *)
Local Abbreviation written c i k v :=
  (Build_BaseContainer den T0 Ts SoA
     (tset k (Vector.update (tget k (mValues c)) (Z.to_nat i) v) (mValues c))).

Lemma tset_fresh_view T (k : member T Types) (i : Z) :
  tset k (ref_wrap_ctor (Element i)) (fresh_view den Types i) =
  fresh_view den Types i.
Proof.
  rewrite <- (@tget_fresh_view ty den Types T k i) at 1. apply tset_tget_same.
Qed.

Lemma SoA_assign_rvalue (c : Container SoA) (i : Z) T (k : member T Types)
    (v : den T) :
  consistent c -> 0 <= i < size c ->
  assign_field_at c i k (Rvalue v) =
  Some (written c i k v, fresh_view den Types i).
Proof.
  intros H Hi. unfold assign_field_at.
  rewrite (@index_consistent_SoA ty den T0 Ts c i H Hi).
  unfold view_assign_field, SoA_assign_field.
  rewrite tget_fresh_view.
  unfold ref_wrap_assign_expr, ref_wrap_assign, ref_wrap_ctor, get.
  rewrite store_in_range
    by (rewrite (@field_size_member ty den Types (mValues c) (size c) H T k);
        exact Hi).
  change {| get := Element i |} with (@ref_wrap_ctor (den T) (Element i)).
  now rewrite tset_fresh_view.
Qed.

Lemma SoA_assign_lvalue (c : Container SoA) (i : Z) T (k : member T Types)
    (x : string) (v : den T) :
  consistent c -> 0 <= i < size c ->
  assign_field_at c i k (Lvalue x v) =
  Some (c, tset k (ref_wrap_ctor (Object x v)) (fresh_view den Types i)).
Proof.
  intros H Hi. unfold assign_field_at.
  rewrite (@index_consistent_SoA ty den T0 Ts c i H Hi).
  unfold view_assign_field, SoA_assign_field, ref_wrap_assign_expr.
  rewrite tset_tget_same. destruct c as [s]. reflexivity.
Qed.

Lemma sizes_written (c : Container SoA) (i : Z) T (k : member T Types)
    (v : den T) :
  sizes (mValues (written c i k v)) = sizes (mValues c).
Proof.
  apply field_sizes_tset. unfold Vector.size. now rewrite length_update.
Qed.

Lemma size_is_first_of_sizes (c : Container SoA) :
  size c = hd 0 (sizes (mValues c)).
Proof. reflexivity. Qed.

Lemma size_written (c : Container SoA) (i : Z) T (k : member T Types)
    (v : den T) :
  size (written c i k v) = size c.
Proof. now rewrite !size_is_first_of_sizes, sizes_written. Qed.

Lemma consistent_written (c : Container SoA) (i : Z) T (k : member T Types)
    (v : den T) :
  consistent c -> consistent (written c i k v).
Proof.
  intros H. cbv beta iota delta [consistent] in *.
  now rewrite sizes_written, size_written.
Qed.

Lemma SoA_read_written (c : Container SoA) (i : Z) T (k : member T Types)
    (v : den T) :
  consistent c -> 0 <= i < size c ->
  read_field_at (written c i k v) i k = Some v.
Proof.
  intros H Hi. unfold read_field_at.
  rewrite index_consistent_SoA
    by (auto using consistent_written; now rewrite size_written).
  unfold view_read_field, SoA_read_field. cbn [mValues].
  rewrite tget_tset_same, tget_fresh_view.
  unfold ref_wrap_conv, ref_wrap_ctor, get.
  apply load_update_same.
  now rewrite (@field_size_member ty den Types (mValues c) (size c) H T k).
Qed.

Lemma AoS_assign (c : Container AoS) (i : Z) T (k : member T Types)
    (e : operand (den T)) :
  0 <= i < size c ->
  exists item,
    Vector.load (mValues c) (Element i) = Some item /\
    assign_field_at c i k e =
    Some (Build_BaseContainer den T0 Ts AoS
            (Vector.update (mValues c) (Z.to_nat i)
               (tset k (operand_value e) item)),
          Element i).
Proof.
  intros Hi.
  destruct (@load_in_range _ (mValues c) i Hi) as [item Hl].
  exists item. split; [exact Hl|].
  unfold assign_field_at, index, policy_get, AoS_get.
  rewrite index_in_range by exact Hi.
  unfold view_assign_field, AoS_assign_field.
  rewrite Hl, store_in_range by exact Hi. reflexivity.
Qed.

(** In [AoS] any assignment, and in [SoA] the assignment of an rvalue, is
    read back at the same position and field. *)
Lemma assign_then_read L (c : Container L) (i : Z) T (k : member T Types)
    (e : operand (den T)) :
  consistent c -> 0 <= i < size c ->
  L = AoS \/ (exists v, e = Rvalue v) ->
  exists c' view',
    assign_field_at c i k e = Some (c', view') /\
    read_field_at c' i k = Some (operand_value e) /\
    size c' = size c.
Proof.
  intros H Hi Hcase. destruct L.
  - destruct Hcase as [Habs|[v ->]]; [discriminate|].
    exists (written c i k v), (fresh_view den Types i).
    split; [now apply SoA_assign_rvalue|].
    split; [now apply SoA_read_written|apply size_written].
  - destruct (@AoS_assign c i T k e Hi) as [item [Hl Ha]].
    eexists; eexists. split; [exact Ha|].
    assert (Hs : forall w,
               Vector.size (Vector.update (mValues c) (Z.to_nat i) w)
               = Vector.size (mValues c)).
    { intros w. unfold Vector.size. now rewrite length_update. }
    split; [|apply Hs].
    unfold read_field_at, index, policy_get, AoS_get. cbn [mValues].
    rewrite index_in_range by (rewrite Hs; exact Hi).
    unfold view_read_field, AoS_read_field. cbn [mValues].
    rewrite load_update_same by exact Hi.
    now rewrite tget_tset_same.
Qed.

Lemma index_some_in_range (c : Container SoA) (i : Z)
    (view : policy_value_type den T0 Ts SoA) :
  index c i = Some view -> 0 <= i < size c.
Proof.
  intros H. unfold index, policy_get, SoA_get in H. cbn [doGet] in H.
  change (Vector.size (fst (mValues c))) with (size c) in *.
  unfold Vector.index in H.
  destruct (0 <=? i) eqn:E0; [|discriminate].
  destruct (i <? Vector.size (fst (mValues c))) eqn:E1; [|discriminate].
  apply Z.leb_le in E0. apply Z.ltb_lt in E1. split; assumption.
Qed.

(** Every statement keeps the arrays of a container equally long, so the
    containers a program reaches from the constructor all are [consistent]. *)
Lemma consistent_step L (c c' : Container L) (st : statement den T0 Ts) :
  consistent c -> step init c st = Some c' -> consistent c'.
Proof.
  intros H. destruct st as [o|i T k e]; cbn [step].
  - intros [= <-]. now apply consistent_exec.
  - destruct L; [|intros _; exact I].
    destruct (assign_field_at c i k e) as [[c1 view1]|] eqn:Ha; [|discriminate].
    intros [= <-].
    assert (Hi : 0 <= i < size c).
    { unfold assign_field_at in Ha.
      destruct (index c i) as [view|] eqn:Hx; [|discriminate].
      exact (index_some_in_range c i Hx). }
    destruct e as [v|x v].
    + rewrite (SoA_assign_rvalue k v H Hi) in Ha.
      injection Ha as <- _. now apply consistent_written.
    + rewrite (SoA_assign_lvalue k x v H Hi) in Ha.
      now injection Ha as <- _.
Qed.

Lemma consistent_states L (prog : list (statement den T0 Ts))
    (c : Container L) :
  consistent c -> Forall (fun c' => consistent c') (states init c prog).
Proof.
  revert c. induction prog as [|st prog IH]; intros c H; cbn [states];
    [constructor|].
  destruct (step init c st) as [c'|] eqn:E; [|constructor].
  pose proof (@consistent_step L c c' st H E) as H'.
  constructor; [exact H'|now apply IH].
Qed.

(** C10. On a [SoA] view, the assignment of an lvalue of the field's type
    leaves the per-field arrays as they were: it rebinds the proxy of the
    temporary view to the caller's object, and the view at the position still
    reads the old value. The assignment of an rvalue goes through
    [ref_wrap::operator=(T&&)] and is read back. *)
Theorem SoA_lvalue_assignment_rebinds (c : Container SoA) (i : Z) T
    (k : member T Types) (x : string) (v : den T) :
  consistent c -> 0 <= i < size c ->
  (exists view',
     assign_field_at c i k (Lvalue x v) = Some (c, view') /\
     get (tget k view') = Object x v /\
     index c i = Some (fresh_view den Types i) /\
     get (tget k (fresh_view den Types i)) = Element i) /\
  (exists c' view',
     assign_field_at c i k (Rvalue v) = Some (c', view') /\
     get (tget k view') = Element i /\
     read_field_at c' i k = Some v).
Proof.
  intros H Hi. split.
  - eexists. split; [now apply SoA_assign_lvalue|].
    rewrite tget_tset_same, tget_fresh_view.
    repeat split. now apply index_consistent_SoA.
  - exists (written c i k v), (fresh_view den Types i).
    split; [now apply SoA_assign_rvalue|].
    rewrite tget_fresh_view. split; [reflexivity|].
    now apply SoA_read_written.
Qed.

End AssignFacts.

(** ** Iteration *)

Lemma positions_in (n p : Z) : In p (positions n) <-> 0 <= p < n.
Proof.
  unfold positions. rewrite in_map_iff. split.
  - intros [k [<- Hk]]. apply in_seq in Hk. lia.
  - intros H. exists (Z.to_nat p). split; [lia|]. apply in_seq. lia.
Qed.

Lemma seq_strictly_ascending (a k : nat) :
  StronglySorted Z.lt (map Z.of_nat (seq a k)).
Proof.
  revert a. induction k as [|k IH]; intros a; simpl; constructor.
  - apply IH.
  - apply Forall_forall. intros q Hq.
    apply in_map_iff in Hq. destruct Hq as [j [<- Hj]].
    apply in_seq in Hj. lia.
Qed.

Lemma positions_strictly_ascending (n : Z) :
  StronglySorted Z.lt (positions n).
Proof. apply seq_strictly_ascending. Qed.

Lemma positions_NoDup (n : Z) : NoDup (positions n).
Proof.
  unfold positions. generalize 0%nat as a, (Z.to_nat n) as k.
  intros a k. revert a. induction k as [|k IH]; intros a; simpl; constructor.
  - rewrite in_map_iff. intros [j [Hj Hin]]. apply in_seq in Hin. lia.
  - apply IH.
Qed.

Lemma positions_length (n : Z) : 0 <= n -> Z.of_nat (length (positions n)) = n.
Proof.
  intros H. unfold positions. rewrite length_map, length_seq. lia.
Qed.

Section IterationFacts.
Variable ty : Type.
Variable den : ty -> Type.
Variable T0 : ty.
Variable Ts : list ty.

Local Abbreviation Container := (BaseContainer den T0 Ts).

(** The loop started at position [p] of the container at address [this]
    records the positions [p .. size()-1] and stops, given fuel for the
    remaining steps and one more. *)
Lemma range_for_from L (heap : list (Container L)) (this : nat)
    (c : Container L) :
  nth_error heap this = Some c -> size c < size_t_modulus ->
  forall (fuel : nat) (p : Z) visited,
    0 <= p <= size c -> (Z.to_nat (size c - p) < fuel)%nat ->
    range_for fuel heap (Iterator_ctor (Some this) p) (end_ this c) visited =
    Some (visited ++
          map (fun q => (q, index c q))
              (map Z.of_nat (seq (Z.to_nat p) (Z.to_nat (size c - p))))).
Proof.
  intros Hc Hmax. induction fuel as [|fuel IH]; intros p visited Hp Hf;
    [lia|].
  simpl. unfold Iterator_ne; simpl.
  destruct (p =? size c) eqn:E; simpl.
  - apply Z.eqb_eq in E. subst p. rewrite Z.sub_diag. simpl.
    now rewrite app_nil_r.
  - apply Z.eqb_neq in E.
    unfold Iterator_incr, Iterator_add_assign; simpl.
    rewrite to_size_t_small by lia.
    change {| mContainer := Some this; mIterPosition := p + 1 |}
      with (Iterator_ctor (Some this) (p + 1)).
    rewrite IH by lia.
    unfold Iterator_deref; simpl. rewrite Hc.
    replace (Z.to_nat (size c - p)) with (S (Z.to_nat (size c - (p + 1))))
      by lia.
    simpl. rewrite <- app_assoc. simpl.
    replace (Z.to_nat (p + 1)) with (S (Z.to_nat p)) by lia.
    now rewrite Z2Nat.id by lia.
Qed.

(** C6. Iterating from [begin()] to [end()] of a container, stepping by [++]
    and stopping at the first iterator that does not differ from [end()],
    terminates and dereferences the positions [0 .. size()-1], each once and
    in strictly ascending order; every dereference is the container's indexed
    access at that position. *)
Theorem range_for_visits_each_position_once L (heap : list (Container L))
    (this : nat) (c : Container L) (fuel : nat) :
  nth_error heap this = Some c -> size c < size_t_modulus ->
  (Z.to_nat (size c) < fuel)%nat ->
  exists visited,
    range_for fuel heap (begin this) (end_ this c) [] = Some visited /\
    visited = map (fun p => (p, index c p)) (positions (size c)) /\
    map fst visited = positions (size c) /\
    StronglySorted Z.lt (map fst visited) /\
    NoDup (map fst visited) /\
    (forall p, In p (map fst visited) <-> 0 <= p < size c).
Proof.
  intros Hc Hmax Hf.
  pose proof (size_nonneg_container c) as Hn.
  exists (map (fun p => (p, index c p)) (positions (size c))).
  assert (Hfst : map fst (map (fun p => (p, index c p)) (positions (size c)))
                 = positions (size c)).
  { rewrite map_map. simpl. now rewrite map_id. }
  rewrite Hfst. split.
  - unfold begin.
    rewrite (@range_for_from L heap this c Hc Hmax)
      by (rewrite ?Z.sub_0_r; lia).
    rewrite Z.sub_0_r. reflexivity.
  - split; [reflexivity|].
    split; [reflexivity|].
    split; [apply positions_strictly_ascending|].
    split; [apply positions_NoDup|].
    intros p. apply positions_in.
Qed.

End IterationFacts.

(** ** The two layouts side by side *)

Section VectorMapFacts.
Variables A B : Type.
Variable f : A -> B.

Lemma map_resize (l : list A) (n : Z) (d : A) :
  map f (Vector.resize l n d) = Vector.resize (map f l) n (f d).
Proof.
  unfold Vector.resize.
  now rewrite map_app, firstn_map, map_repeat, length_map.
Qed.

Lemma map_update (l : list A) (i : nat) (x : A) :
  map f (Vector.update l i x) = Vector.update (map f l) i (f x).
Proof.
  revert i. induction l as [|a l IH]; intros [|i]; simpl; auto.
  now rewrite IH.
Qed.

Lemma update_nth_error (l : list A) (i : nat) (x : A) :
  nth_error l i = Some x -> Vector.update l i x = l.
Proof.
  revert i. induction l as [|a l IH]; intros [|i]; simpl; try discriminate.
  - now intros [= ->].
  - intros H. now rewrite IH.
Qed.

End VectorMapFacts.

Section ColumnsFacts.
Variable ty : Type.
Variable den : ty -> Type.
Variable init : forall T : ty, den T.

Local Abbreviation columns := (columns_of den).

Lemma columns_of_nil Types : columns Types [] = SoA_empty den Types.
Proof. induction Types; simpl; [reflexivity|]. now f_equal. Qed.

Lemma columns_of_resize Types (l : list (TItem den Types)) (n : Z) :
  columns Types (Vector.resize l n (TItem_init den init Types)) =
  doResize den init Types (columns Types l) n.
Proof.
  revert l. induction Types as [|T Ts IH]; intros l; simpl; [reflexivity|].
  rewrite !map_resize. simpl. now rewrite IH.
Qed.

Lemma columns_of_push_back Types (l : list (TItem den Types))
    (val_ : TItem den Types) :
  columns Types (Vector.push_back l val_) =
  doPushBack den Types (columns Types l) val_.
Proof.
  revert l val_. induction Types as [|T Ts IH]; intros l val_; simpl;
    [reflexivity|].
  unfold Vector.push_back in *. rewrite !map_app. simpl. now rewrite IH.
Qed.

Lemma columns_of_update Types T (k : member T Types)
    (l : list (TItem den Types)) (i : nat) (item : TItem den Types)
    (v : den T) :
  nth_error l i = Some item ->
  columns Types (Vector.update l i (tset k v item)) =
  tset k (Vector.update (tget k (columns Types l)) i v) (columns Types l).
Proof.
  revert l item. induction k as [Ts|U Ts k IH]; intros l item H; simpl.
  - rewrite !map_update. simpl. f_equal.
    rewrite update_nth_error; [reflexivity|].
    now apply (map_nth_error snd).
  - rewrite !map_update. simpl.
    rewrite update_nth_error by now apply (map_nth_error fst).
    f_equal. apply IH. now apply (map_nth_error snd).
Qed.

Lemma field_sizes_columns_of Types (l : list (TItem den Types)) :
  Forall (fun n => n = Vector.size l) (field_sizes den Types (columns Types l)).
Proof.
  revert l. induction Types as [|T Ts IH]; intros l; simpl; constructor.
  - unfold Vector.size. now rewrite length_map.
  - specialize (IH (map snd l)). unfold Vector.size in *.
    now rewrite length_map in IH.
Qed.

Lemma SoA_read_columns_of Types (l : list (TItem den Types)) (p : Z)
    (item : TItem den Types) :
  Vector.load l (Element p) = Some item ->
  SoA_read den Types (columns Types l) (fresh_view den Types p) = Some item.
Proof.
  revert l item. induction Types as [|T Ts IH]; intros l item H.
  - now destruct item.
  - cbn [SoA_read columns_of fresh_view fst snd].
    unfold ref_wrap_conv, ref_wrap_ctor, get, Vector.load in *.
    destruct (0 <=? p) eqn:E; [|discriminate].
    rewrite (map_nth_error fst _ _ H).
    rewrite (IH (map snd l) (snd item)).
    + now destruct item.
    + exact (map_nth_error snd _ _ H).
Qed.

End ColumnsFacts.

Section Equivalence.
Variable ty : Type.
Variable den : ty -> Type.
Variable init : forall T : ty, den T.
Variable T0 : ty.
Variable Ts : list ty.

Local Abbreviation Types := (T0 :: Ts).
Local Abbreviation Container := (BaseContainer den T0 Ts).
Local Abbreviation ctor := (BaseContainer_ctor den init T0 Ts).

Lemma same_records_size (a : Container AoS) (s : Container SoA) :
  same_records a s -> size s = size a.
Proof.
  unfold same_records, size, policy_size, SoA_size, AoS_size. intros ->.
  cbn [columns_of fst]. unfold Vector.size. now rewrite length_map.
Qed.

Lemma same_records_consistent (a : Container AoS) (s : Container SoA) :
  same_records a s -> consistent s.
Proof.
  intros H. cbv beta iota delta [consistent].
  rewrite (same_records_size H). unfold same_records in H. rewrite H.
  apply field_sizes_columns_of.
Qed.

Lemma same_records_resize (a : Container AoS) (s : Container SoA) (n : Z) :
  same_records a s -> 0 <= n < unsigned_modulus ->
  same_records (resize init a n) (resize init s n).
Proof.
  unfold same_records, resize. cbn [mValues policy_resize].
  intros -> Hn. unfold SoA_resize, AoS_resize.
  rewrite to_unsigned_small by exact Hn.
  symmetry. apply columns_of_resize.
Qed.

Lemma same_records_ctor (n : Z) :
  0 <= n < unsigned_modulus -> same_records (ctor AoS n) (ctor SoA n).
Proof.
  intros Hn. apply same_records_resize; [|exact Hn].
  unfold same_records. cbn [mValues policy_empty].
  symmetry. apply columns_of_nil.
Qed.

Lemma same_records_push_back (a : Container AoS) (s : Container SoA)
    (val : TItem den Types) :
  same_records a s -> same_records (push_back a val) (push_back s val).
Proof.
  unfold same_records, push_back. cbn [mValues policy_push_back].
  intros ->. unfold SoA_push_back, AoS_push_back.
  symmetry. apply columns_of_push_back.
Qed.

Lemma index_out_of_range_SoA (s : Container SoA) (p : Z) :
  ~ 0 <= p < size s -> index s p = None.
Proof.
  intros H. unfold index, policy_get, SoA_get. cbn [doGet].
  now rewrite index_out_of_range.
Qed.

Lemma same_records_read (a : Container AoS) (s : Container SoA) (p : Z) :
  same_records a s -> read_at a p = read_at s p.
Proof.
  intros H. pose proof (same_records_size H) as Hs.
  pose proof (same_records_consistent H) as Hc.
  unfold read_at.
  destruct (Z.le_gt_cases 0 p) as [H0|H0];
    [destruct (Z.lt_ge_cases p (size a)) as [H1|H1]|].
  - rewrite (@index_consistent_SoA ty den T0 Ts s p Hc) by lia.
    unfold index, policy_get, AoS_get.
    rewrite index_in_range by (split; assumption).
    destruct (@load_in_range _ (mValues a) p (conj H0 H1)) as [item Hl].
    unfold view_read, AoS_read. rewrite Hl.
    unfold same_records in H. rewrite H.
    symmetry. now apply SoA_read_columns_of.
  - rewrite index_out_of_range_SoA by lia.
    unfold index, policy_get, AoS_get.
    rewrite index_out_of_range; [reflexivity|].
    change (Vector.size (mValues a)) with (size a). lia.
  - rewrite index_out_of_range_SoA by lia.
    unfold index, policy_get, AoS_get.
    rewrite index_out_of_range; [reflexivity|]. lia.
Qed.

Lemma same_records_observe (a : Container AoS) (s : Container SoA) :
  same_records a s -> observe a = observe s.
Proof.
  intros H. unfold observe. rewrite (same_records_size H).
  apply map_ext. intros p. now apply same_records_read.
Qed.

Lemma same_records_step (a : Container AoS) (s : Container SoA)
    (st : statement den T0 Ts) :
  same_records a s -> portable st ->
  match step init a st, step init s st with
  | Some a', Some s' => same_records a' s'
  | None, None => True
  | _, _ => False
  end.
Proof.
  intros H Hp. pose proof (same_records_size H) as Hs.
  pose proof (same_records_consistent H) as Hc.
  destruct st as [[val|n]|i T k [v|x v]]; cbn [step exec portable] in *.
  - now apply same_records_push_back.
  - now apply same_records_resize.
  - destruct (Z.le_gt_cases 0 i) as [H0|H0];
      [destruct (Z.lt_ge_cases i (size a)) as [H1|H1]|].
    + destruct (@AoS_assign ty den T0 Ts a i T k (Rvalue v) (conj H0 H1))
        as [item [Hl Ha]].
      rewrite Ha.
      rewrite (@SoA_assign_rvalue ty den T0 Ts s i T k v Hc) by lia.
      unfold same_records in *. cbn [mValues operand_value].
      rewrite H. symmetry. apply columns_of_update.
      unfold Vector.load in Hl.
      destruct (0 <=? i); [exact Hl|discriminate].
    + unfold assign_field_at.
      rewrite index_out_of_range_SoA by lia.
      unfold index, policy_get, AoS_get.
      rewrite index_out_of_range; [exact I|].
      change (Vector.size (mValues a)) with (size a). lia.
    + unfold assign_field_at.
      rewrite index_out_of_range_SoA by lia.
      unfold index, policy_get, AoS_get.
      rewrite index_out_of_range; [exact I|]. lia.
  - contradiction.
Qed.

(** On programs of [portable] statements the two layouts fail at the same
    statement and show the same records after each one before it. *)
Lemma layouts_agree_on_portable (prog : list (statement den T0 Ts))
    (a : Container AoS) (s : Container SoA) :
  same_records a s -> Forall (@portable ty den T0 Ts) prog ->
  map (fun c => observe c) (states init a prog) =
  map (fun c => observe c) (states init s prog).
Proof.
  revert a s. induction prog as [|st prog IH]; intros a s H Hp;
    [reflexivity|].
  inversion Hp as [|st' prog' Hst Hprog]; subst.
  pose proof (@same_records_step a s st H Hst) as Hstep.
  cbn [states].
  destruct (step init a st) as [a'|], (step init s st) as [s'|];
    try contradiction; [|reflexivity].
  cbn [map]. f_equal.
  - now apply same_records_observe.
  - now apply IH.
Qed.

Lemma layouts_agree_from_ctor (n : Z) (prog : list (statement den T0 Ts)) :
  0 <= n < unsigned_modulus -> Forall (@portable ty den T0 Ts) prog ->
  observe (ctor AoS n) = observe (ctor SoA n) /\
  map (fun c => observe c) (states init (ctor AoS n) prog) =
  map (fun c => observe c) (states init (ctor SoA n) prog).
Proof.
  intros Hn Hp. pose proof (@same_records_ctor n Hn) as H. split.
  - now apply same_records_observe.
  - now apply layouts_agree_on_portable.
Qed.

End Equivalence.

(** ** The container of [main] *)

Import Demo.

Example SoA_scenario :
  let c := push_back (container_ SoA 3) item_1_5_7 in
  size (container_ SoA 3) = 3 /\
  size c = 4 /\
  read_field_at c 3 myDouble = Some one_and_a_half /\
  read_field_at c 3 myChar = Some x07 /\
  size (resize value_init c 2) = 2 /\
  field_sizes field_type _ (mValues (resize value_init c 2)) = [2; 2; 2; 2].
Proof. vm_compute. repeat split. Qed.

Lemma push_back_appends_witness :
  consistent (container_ SoA 3) /\
  (size (push_back (container_ SoA 3) item_1_5_7)
   = size (container_ SoA 3) + 1 /\
   read_at (push_back (container_ SoA 3) item_1_5_7) (size (container_ SoA 3))
   = Some item_1_5_7 /\
   forall T (k : member T (eMyDouble :: Rest)),
     read_field_at (push_back (container_ SoA 3) item_1_5_7)
       (size (container_ SoA 3)) k = Some (tget k item_1_5_7)).
Proof.
  split.
  - apply consistent_ctor.
  - apply (@push_back_appends Component field_type eMyDouble Rest SoA
             (container_ SoA 3) item_1_5_7).
    apply consistent_ctor.
Defined.

Lemma SoA_resize_truncates_AoS_resizes_up_to_max_size_witness :
  0 <= 2 ^ 32 + 5 < size_t_modulus /\
  size (resize value_init (char_container SoA 3) (2 ^ 32 + 5)) = 5 /\
  size (resize value_init (char_container SoA 3) (2 ^ 32 + 5)) <> 2 ^ 32 + 5 /\
  (exists c'',
     resize_AoS_checked value_init ptrdiff_max (char_container AoS 3)
       (2 ^ 32 + 5)
     = Some c'' /\ size c'' = 2 ^ 32 + 5) /\
  resize_AoS_checked value_init (2 ^ 32) (char_container AoS 3) (2 ^ 32 + 5)
  = None.
Proof.
  assert (H : 0 <= 2 ^ 32 + 5 < size_t_modulus)
    by (unfold size_t_modulus; lia).
  split; [exact H|].
  destruct (@SoA_resize_truncates_AoS_resizes_up_to_max_size Component
              field_type value_init eMyChar [] (char_container SoA 3)
              (char_container AoS 3) ptrdiff_max (2 ^ 32 + 5) H)
    as [_ [Hs [Hne [Hin _]]]].
  destruct (@SoA_resize_truncates_AoS_resizes_up_to_max_size Component
              field_type value_init eMyChar [] (char_container SoA 3)
              (char_container AoS 3) (2 ^ 32) (2 ^ 32 + 5) H)
    as [_ [_ [_ [_ Hout]]]].
  split; [exact Hs|]. split; [apply Hne; lia|].
  split; [apply Hin; unfold ptrdiff_max; lia|apply Hout; lia].
Defined.

(** Against the claim that [AoS] resizes to every requested [n]: with the
    largest [max_size()] a vector can have, [resize(2^63)] on an [AoS]
    container of one-byte records throws, and no container of size [2^63]
    results. *)
Lemma AoS_resize_to_2_63_throws :
  0 <= 2 ^ 63 < size_t_modulus /\
  2 ^ 32 <= 2 ^ 63 /\
  ~ (exists c'',
       resize_AoS_checked value_init ptrdiff_max (char_container AoS 0) (2 ^ 63)
       = Some c'' /\ size c'' = 2 ^ 63).
Proof.
  split; [unfold size_t_modulus; lia|]. split; [lia|].
  intros [c'' [H _]].
  rewrite resize_AoS_checked_above in H by (unfold ptrdiff_max; lia).
  discriminate H.
Qed.

Lemma SoA_lvalue_assignment_rebinds_witness :
  consistent (container_ SoA 1) /\
  0 <= 0 < size (container_ SoA 1) /\
  (exists view',
     assign_field_at (container_ SoA 1) 0 myDouble (Lvalue "x" two)
     = Some (container_ SoA 1, view') /\
     get (tget myDouble view') = Object "x" two) /\
  read_field_at (container_ SoA 1) 0 myDouble = Some (S754_zero false).
Proof.
  assert (Hc : consistent (container_ SoA 1)) by apply consistent_ctor.
  assert (Hi : 0 <= 0 < size (container_ SoA 1))
    by (vm_compute; intuition congruence).
  split; [exact Hc|]. split; [exact Hi|]. split; [|reflexivity].
  destruct (@SoA_lvalue_assignment_rebinds Component field_type eMyDouble Rest
              (container_ SoA 1) 0 eMyDouble myDouble "x"%string two Hc Hi)
    as [[view' [Ha [Hg _]]] _].
  exists view'. split; assumption.
Defined.

Lemma range_for_visits_each_position_once_witness :
  nth_error [container_ SoA 3] 0 = Some (container_ SoA 3) /\
  size (container_ SoA 3) < size_t_modulus /\
  (Z.to_nat (size (container_ SoA 3)) < 4)%nat /\
  exists visited,
    range_for 4 [container_ SoA 3] (begin 0) (end_ 0 (container_ SoA 3)) []
    = Some visited /\
    map fst visited = [0; 1; 2].
Proof.
  assert (H1 : nth_error [container_ SoA 3] 0 = Some (container_ SoA 3))
    by reflexivity.
  assert (H2 : size (container_ SoA 3) < size_t_modulus) by reflexivity.
  assert (H3 : (Z.to_nat (size (container_ SoA 3)) < 4)%nat)
    by (vm_compute; repeat constructor).
  split; [exact H1|]. split; [exact H2|]. split; [exact H3|].
  destruct (@range_for_visits_each_position_once Component field_type
              eMyDouble Rest SoA [container_ SoA 3] 0%nat (container_ SoA 3)
              4%nat H1 H2 H3) as [visited [Hr [_ [Hp _]]]].
  exists visited. split; [exact Hr|]. rewrite Hp. reflexivity.
Defined.

(** C8. The call of the copy assignment of an [Iterator] is undefined for
    every pair of iterators: the body copies the position and keeps the
    container, and then control reaches the end of the function, which is
    declared to return [Iterator&], without a [return] statement.  On a
    container of three records, assigning an iterator at position 1 of another
    container to [begin()] and dereferencing is undefined, although the body
    has left [begin()] on its own container at position 1, where the indexed
    access is defined. *)
Theorem Iterator_copy_assignment_is_undefined :
  (forall this other_ : Iterator, Iterator_assign_call this other_ = None) /\
  assign_then_deref [container_ AoS 3; container_ AoS 5]
    (begin 0) (Iterator_incr (begin 1)) = None /\
  mContainer (Iterator_assign (begin 0) (Iterator_incr (begin 1)))
  = Some 0%nat /\
  mIterPosition (Iterator_assign (begin 0) (Iterator_incr (begin 1))) = 1 /\
  Iterator_deref [container_ AoS 3; container_ AoS 5]
    (Iterator_assign (begin 0) (Iterator_incr (begin 1)))
  = index (container_ AoS 3) 1 /\
  index (container_ AoS 3) 1 = Some (Element 1).
Proof.
  split; [intros this other_; reflexivity|].
  repeat split; reflexivity.
Qed.

(** C1. The statement [double x = 2.0; container_[0].myDouble() = x;] run on
    an [AoS] and on a [SoA] container of one record: afterwards position 0
    shows [2.0] in [AoS] and still [0.0] in [SoA], so the observed records
    differ after this step. With the literal on the right they agree. *)
Theorem layouts_differ_after_lvalue_assignment :
  (exists a s,
     step value_init (container_ AoS 1) assign_lvalue = Some a /\
     step value_init (container_ SoA 1) assign_lvalue = Some s /\
     read_field_at a 0 myDouble = Some two /\
     read_field_at s 0 myDouble = Some (S754_zero false) /\
     observe a <> observe s) /\
  map (fun c => observe c)
    (states value_init (container_ AoS 1) [assign_lvalue])
  <> map (fun c => observe c)
       (states value_init (container_ SoA 1) [assign_lvalue]) /\
  map (fun c => observe c)
    (states value_init (container_ AoS 1) [assign_rvalue])
  = map (fun c => observe c)
      (states value_init (container_ SoA 1) [assign_rvalue]).
Proof.
  split; [|split].
  - eexists; eexists. split; [reflexivity|]. split; [reflexivity|].
    split; [reflexivity|]. split; [reflexivity|].
    vm_compute. discriminate.
  - vm_compute. discriminate.
  - vm_compute. reflexivity.
Qed.

(** The other place where the layouts part: after [resize(2^32)] the [SoA]
    container has no record, and the [AoS] container has [2^32] records when
    the call returns. *)
Lemma layouts_differ_after_large_resize :
  size (resize value_init (container_ AoS 1) (2 ^ 32)) = 2 ^ 32 /\
  size (resize value_init (container_ SoA 1) (2 ^ 32)) = 0 /\
  length (observe (resize value_init (container_ AoS 1) (2 ^ 32))) <>
  length (observe (resize value_init (container_ SoA 1) (2 ^ 32))).
Proof.
  assert (Ha : size (resize value_init (container_ AoS 1) (2 ^ 32)) = 2 ^ 32)
    by (apply size_resize_AoS; lia).
  assert (Hs : size (resize value_init (container_ SoA 1) (2 ^ 32)) = 0)
    by reflexivity.
  split; [exact Ha|]. split; [exact Hs|].
  unfold observe. rewrite !length_map, Ha, Hs.
  intros H. apply (f_equal Z.of_nat) in H.
  rewrite !positions_length in H by lia. discriminate H.
Qed.

(** C4. On a [SoA] container of one record, a value written to the field
    [myDouble] through the view at position 0 from an lvalue is not the value
    read through a fresh view at position 0: the write is accepted, the
    container is unchanged and the field still reads [0.0]. The same statement
    on an [AoS] container is read back. *)
Theorem SoA_lvalue_write_is_not_read_back :
  (exists view',
     assign_field_at (container_ SoA 1) 0 myDouble (Lvalue "x" two)
     = Some (container_ SoA 1, view') /\
     read_field_at (container_ SoA 1) 0 myDouble = Some (S754_zero false) /\
     read_field_at (container_ SoA 1) 0 myDouble <> Some two) /\
  (exists a view',
     assign_field_at (container_ AoS 1) 0 myDouble (Lvalue "x" two)
     = Some (a, view') /\
     read_field_at a 0 myDouble = Some two).
Proof.
  split.
  - eexists. split; [reflexivity|]. split; [reflexivity|].
    vm_compute. discriminate.
  - eexists; eexists. split; reflexivity.
Qed.

(** C5. A [SoA] container constructed with initial size [2^32] has [size()]
    zero, and every per-field array is empty; with [2^32 + 3] it has size 3. *)
Theorem SoA_ctor_size_wraps_at_2_32 :
  size (container_ SoA (2 ^ 32)) = 0 /\
  size (container_ SoA (2 ^ 32)) <> 2 ^ 32 /\
  field_sizes field_type _ (mValues (container_ SoA (2 ^ 32))) = [0; 0; 0; 0] /\
  size (container_ SoA (2 ^ 32 + 3)) = 3.
Proof.
  split; [reflexivity|]. split; [|split; reflexivity].
  vm_compute. discriminate.
Qed.

(** C7. The position an [Iterator] holds after the assignment of a null value,
    and the one the default member initialiser names, is
    [std::numeric_limits<std::size_t>::infinity()], which is zero and not the
    maximal position; such an iterator compares equal to [end()] of an empty
    container and to [begin()] of any container. *)
Theorem null_iterator_equals_end_of_empty_container :
  mIterPosition (Iterator_assign_null (end_ 0 (container_ SoA 3))) = 0 /\
  mIterPosition Iterator_default_members = 0 /\
  mIterPosition (Iterator_assign_null (end_ 0 (container_ SoA 3)))
  <> size_t_max /\
  Iterator_eq (Iterator_assign_null (end_ 0 (container_ SoA 3)))
              (end_ 1 (container_ SoA 0)) = true /\
  Iterator_eq (Iterator_assign_null (end_ 0 (container_ AoS 3)))
              (end_ 1 (container_ AoS 0)) = true /\
  Iterator_eq (Iterator_assign_null (end_ 0 (container_ SoA 3)))
              (begin 0) = true /\
  Iterator_bool (Iterator_assign_null (end_ 0 (container_ SoA 3))) =
  Iterator_bool (end_ 0 (container_ SoA 3)).
Proof.
  repeat split; try reflexivity.
  vm_compute. discriminate.
Qed.

(** * Further properties *)

(** ** [std::vector]: contents after [push_back] and [resize] *)

Section VectorContents.
Variable T : Type.
Implicit Types (c : Vector.vector T) (v d : T).

Lemma load_update_apart c p q v :
  0 <= p -> p <> q ->
  Vector.load (Vector.update c (Z.to_nat p) v) (Element q) =
  Vector.load c (Element q).
Proof.
  intros Hp Hne. unfold Vector.load.
  destruct (0 <=? q) eqn:E; [|reflexivity].
  apply Z.leb_le in E. apply nth_error_update_other. lia.
Qed.

Lemma load_push_back_before c v j :
  0 <= j < Vector.size c ->
  Vector.load (Vector.push_back c v) (Element j) = Vector.load c (Element j).
Proof.
  intros [H0 H1]. unfold Vector.load, Vector.push_back, Vector.size in *.
  destruct (0 <=? j); [|reflexivity].
  apply nth_error_app1. lia.
Qed.

Lemma load_resize_prefix c n d j :
  0 <= j < Vector.size c -> j < n ->
  Vector.load (Vector.resize c n d) (Element j) = Vector.load c (Element j).
Proof.
  intros [H0 H1] Hn. unfold Vector.load, Vector.resize, Vector.size in *.
  destruct (0 <=? j); [|reflexivity].
  rewrite nth_error_app1 by (rewrite length_firstn; lia).
  rewrite nth_error_firstn.
  destruct (Z.to_nat j <? Z.to_nat n)%nat eqn:E; [reflexivity|].
  apply Nat.ltb_ge in E. lia.
Qed.

Lemma load_resize_fill c n d j :
  Vector.size c <= j < n ->
  Vector.load (Vector.resize c n d) (Element j) = Some d.
Proof.
  intros [H0 H1]. unfold Vector.load, Vector.resize, Vector.size in *.
  destruct (0 <=? j) eqn:E; [|apply Z.leb_gt in E; lia].
  rewrite nth_error_app2 by (rewrite length_firstn; lia).
  rewrite length_firstn.
  apply nth_error_repeat. lia.
Qed.

Lemma resize_to_size c d : Vector.resize c (Vector.size c) d = c.
Proof.
  unfold Vector.resize, Vector.size. rewrite Nat2Z.id, Nat.sub_diag.
  simpl. now rewrite app_nil_r, firstn_all.
Qed.

Lemma resize_push_back c v d :
  Vector.resize (Vector.push_back c v) (Vector.size c) d = c.
Proof.
  unfold Vector.resize, Vector.push_back, Vector.size.
  rewrite Nat2Z.id, length_app. simpl.
  replace (length c - (length c + 1))%nat with 0%nat by lia. simpl.
  rewrite app_nil_r, firstn_app, Nat.sub_diag. simpl.
  now rewrite app_nil_r, firstn_all.
Qed.

Lemma firstn_of_repeat d (k n : nat) :
  firstn k (repeat d n) = repeat d (Nat.min k n).
Proof.
  revert n. induction k as [|k IH]; intros [|n]; simpl; auto.
  now rewrite IH.
Qed.

Lemma resize_resize c n m d :
  m <= n ->
  Vector.resize (Vector.resize c n d) m d = Vector.resize c m d.
Proof.
  intros H. unfold Vector.resize.
  set (a := Z.to_nat n). set (b := Z.to_nat m).
  assert (Hab : (b <= a)%nat) by (subst a b; lia). clearbody a b.
  rewrite length_app, length_firstn, repeat_length.
  rewrite firstn_app, firstn_firstn, length_firstn.
  replace (Nat.min b a) with b by lia.
  destruct (Nat.le_gt_cases b (length c)) as [Hb|Hb].
  - replace (b - Nat.min a (length c))%nat with 0%nat by lia.
    replace (b - (Nat.min a (length c) + (a - length c)))%nat with 0%nat
      by lia.
    replace (b - length c)%nat with 0%nat by lia.
    simpl. now rewrite app_nil_r.
  - replace (Nat.min a (length c)) with (length c) by lia.
    rewrite firstn_of_repeat.
    replace (b - (length c + (a - length c)))%nat with 0%nat by lia.
    replace (Nat.min (b - length c) (a - length c)) with (b - length c)%nat
      by lia.
    simpl. rewrite app_nil_r.
    now rewrite !firstn_all2 by lia.
Qed.

End VectorContents.

(** ** [std::tuple]: a component that is not the one assigned *)

Section TupleFrame.
Variable ty : Type.
Variable F : ty -> Type.

(** Case analysis of an index into a pack that has a first type. *)
Lemma member_case (U : ty) (Ts : list ty) (T : ty) (k : member T (U :: Ts))
    (P : forall T' : ty, member T' (U :: Ts) -> Prop) :
  P U Here -> (forall (T' : ty) (k' : member T' Ts), P T' (There k')) -> P T k.
Proof.
  revert P.
  refine (match k in member _ l return
            match l return member T l -> Prop with
            | [] => fun _ => True
            | U' :: Ts' => fun k0 =>
                forall P : forall T' : ty, member T' (U' :: Ts') -> Prop,
                  P U' Here ->
                  (forall (T' : ty) (k' : member T' Ts'), P T' (There k')) ->
                  P T k0
            end k
          with
          | Here => fun P H1 H2 => H1
          | There k' => fun P H1 H2 => H2 _ k'
          end).
Qed.

Lemma tget_tset_other T Types (k : member T Types) (v : F T) :
  forall T' (k' : member T' Types) (tp : tuple F Types),
    member_index k' <> member_index k ->
    tget k' (tset k v tp) = tget k' tp.
Proof.
  induction k as [Ts|U Ts k IH]; intros T' k'.
  - apply (member_case k'
             (fun T' k' => forall tp : tuple F (T :: Ts),
                member_index k' <> member_index (@Here ty T Ts) ->
                tget k' (tset Here v tp) = tget k' tp)).
    + simpl. intros tp H. congruence.
    + intros T'' k'' tp _. reflexivity.
  - apply (member_case k'
             (fun T' k' => forall tp : tuple F (U :: Ts),
                member_index k' <> member_index (There (U:=U) k) ->
                tget k' (tset (There k) v tp) = tget k' tp)).
    + intros tp _. reflexivity.
    + intros T'' k'' tp H. simpl in *. apply IH. congruence.
Qed.

End TupleFrame.

(** ** The [SoA] policy: what a view reads after each operation *)

Section PolicyContents.
Variable ty : Type.
Variable den : ty -> Type.
Variable init : forall T : ty, den T.

Local Abbreviation sizes := (field_sizes den).
Local Abbreviation fresh := (fresh_view den).
Local Abbreviation read := (SoA_read den).

Lemma SoA_read_in_range Types (c_ : SoA_type den Types) (N p : Z) :
  Forall (fun n => n = N) (sizes Types c_) -> 0 <= p < N ->
  exists item, read Types c_ (fresh Types p) = Some item.
Proof.
  intros H Hp. induction Types as [|T Ts IH].
  - exists tt. reflexivity.
  - cbn [field_sizes] in H. inversion H as [|n l Hn Hl]; subst.
    destruct (IH (snd c_) Hl) as [rest Hr].
    destruct (@load_in_range _ (fst c_) p Hp) as [v Hv].
    exists (v, rest). cbn [SoA_read fresh_view fst snd].
    unfold ref_wrap_conv, ref_wrap_ctor, get. now rewrite Hv, Hr.
Qed.

Lemma SoA_read_doPushBack_before Types (c_ : SoA_type den Types)
    (val_ : TItem den Types) (N p : Z) :
  Forall (fun n => n = N) (sizes Types c_) -> 0 <= p < N ->
  read Types (doPushBack den Types c_ val_) (fresh Types p) =
  read Types c_ (fresh Types p).
Proof.
  intros H Hp. induction Types as [|T Ts IH]; [reflexivity|].
  cbn [field_sizes] in H. inversion H as [|n l Hn Hl]; subst.
  cbn [SoA_read doPushBack fresh_view fst snd].
  unfold ref_wrap_conv, ref_wrap_ctor, get.
  rewrite load_push_back_before by exact Hp.
  now rewrite IH.
Qed.

Lemma SoA_read_doResize_prefix Types (c_ : SoA_type den Types) (N n p : Z) :
  Forall (fun m => m = N) (sizes Types c_) -> 0 <= p < N -> p < n ->
  read Types (doResize den init Types c_ n) (fresh Types p) =
  read Types c_ (fresh Types p).
Proof.
  intros H Hp Hn. induction Types as [|T Ts IH]; [reflexivity|].
  cbn [field_sizes] in H. inversion H as [|m l Hm Hl]; subst.
  cbn [SoA_read doResize fresh_view fst snd].
  unfold ref_wrap_conv, ref_wrap_ctor, get.
  rewrite load_resize_prefix by assumption.
  now rewrite IH.
Qed.

Lemma SoA_read_doResize_fill Types (c_ : SoA_type den Types) (N n p : Z) :
  Forall (fun m => m = N) (sizes Types c_) -> 0 <= N <= p -> p < n ->
  read Types (doResize den init Types c_ n) (fresh Types p) =
  Some (TItem_init den init Types).
Proof.
  intros H Hp Hn. induction Types as [|T Ts IH]; [reflexivity|].
  cbn [field_sizes] in H. inversion H as [|m l Hm Hl]; subst.
  cbn [SoA_read doResize fresh_view fst snd TItem_init].
  unfold ref_wrap_conv, ref_wrap_ctor, get.
  rewrite load_resize_fill by lia.
  now rewrite IH.
Qed.

Lemma SoA_read_tset_same Types T (k : member T Types)
    (c_ : SoA_type den Types) (N i : Z) (v : den T)
    (item : TItem den Types) :
  Forall (fun n => n = N) (sizes Types c_) -> 0 <= i < N ->
  read Types c_ (fresh Types i) = Some item ->
  read Types (tset k (Vector.update (tget k c_) (Z.to_nat i) v) c_)
       (fresh Types i) = Some (tset k v item).
Proof.
  intros H Hi. revert c_ item H.
  induction k as [Ts|U Ts k IH]; intros c_ item H Hr;
    cbn [field_sizes] in H; inversion H as [|n l Hn Hl]; subst;
    cbn [SoA_read fresh_view tset tget fst snd] in *;
    unfold ref_wrap_conv, ref_wrap_ctor, get in *.
  - rewrite load_update_same by exact Hi.
    destruct (Vector.load (fst c_) (Element i)); [|discriminate].
    destruct (SoA_read den Ts (snd c_) (fresh_view den Ts i));
      [|discriminate].
    now injection Hr as <-.
  - destruct (Vector.load (fst c_) (Element i)); [|discriminate].
    destruct (SoA_read den Ts (snd c_) (fresh_view den Ts i)) as [rest|]
      eqn:E; [|discriminate].
    injection Hr as <-. cbn [fst snd].
    now rewrite (IH (snd c_) rest Hl E).
Qed.

Lemma SoA_read_tset_other Types T (k : member T Types)
    (c_ : SoA_type den Types) (i j : Z) (v : den T) :
  0 <= i -> i <> j ->
  read Types (tset k (Vector.update (tget k c_) (Z.to_nat i) v) c_)
       (fresh Types j) = read Types c_ (fresh Types j).
Proof.
  intros Hi Hne. revert c_.
  induction k as [Ts|U Ts k IH]; intros c_;
    cbn [SoA_read fresh_view tset tget fst snd];
    unfold ref_wrap_conv, ref_wrap_ctor, get.
  - now rewrite load_update_apart.
  - now rewrite IH.
Qed.

Lemma doResize_to_size Types (c_ : SoA_type den Types) (N : Z) :
  Forall (fun n => n = N) (sizes Types c_) ->
  doResize den init Types c_ N = c_.
Proof.
  intros H. induction Types as [|T Ts IH].
  - now destruct c_.
  - cbn [field_sizes] in H. inversion H as [|n l Hn Hl]; subst.
    destruct c_ as [col rest]. cbn [doResize fst snd] in *.
    now rewrite resize_to_size, IH.
Qed.

Lemma doResize_doPushBack Types (c_ : SoA_type den Types)
    (val_ : TItem den Types) (N : Z) :
  Forall (fun n => n = N) (sizes Types c_) ->
  doResize den init Types (doPushBack den Types c_ val_) N = c_.
Proof.
  intros H. induction Types as [|T Ts IH].
  - now destruct c_.
  - cbn [field_sizes] in H. inversion H as [|n l Hn Hl]; subst.
    destruct c_ as [col rest]. cbn [doResize doPushBack fst snd] in *.
    now rewrite resize_push_back, IH.
Qed.

Lemma doResize_doResize Types (c_ : SoA_type den Types) (n m : Z) :
  m <= n ->
  doResize den init Types (doResize den init Types c_ n) m =
  doResize den init Types c_ m.
Proof.
  intros H. induction Types as [|T Ts IH]; [reflexivity|].
  cbn [doResize fst snd]. now rewrite resize_resize, IH.
Qed.

End PolicyContents.

(** ** [BaseContainer]: the records after each operation *)

Section ContainerContents.
Variable ty : Type.
Variable den : ty -> Type.
Variable init : forall T : ty, den T.
Variable T0 : ty.
Variable Ts : list ty.

Local Abbreviation Types := (T0 :: Ts).
Local Abbreviation Container := (BaseContainer den T0 Ts).
Local Abbreviation ctor := (BaseContainer_ctor den init T0 Ts).
Local Abbreviation sizes := (field_sizes den Types).
Local Abbreviation written c i k v :=
  (Build_BaseContainer den T0 Ts SoA
     (tset k (Vector.update (tget k (mValues c)) (Z.to_nat i) v) (mValues c))).

Lemma read_at_AoS (c : Container AoS) (j : Z) :
  0 <= j < size c -> read_at c j = Vector.load (mValues c) (Element j).
Proof.
  intros H. unfold read_at, index, policy_get, AoS_get.
  now rewrite index_in_range by exact H.
Qed.

Lemma read_at_SoA (c : Container SoA) (j : Z) :
  consistent c -> 0 <= j < size c ->
  read_at c j = SoA_read den Types (mValues c) (fresh_view den Types j).
Proof.
  intros Hc H. unfold read_at.
  now rewrite (@index_consistent_SoA ty den T0 Ts c j Hc H).
Qed.

Lemma read_at_out_of_range L (c : Container L) (j : Z) :
  ~ 0 <= j < size c -> read_at c j = None.
Proof.
  intros H. unfold read_at. destruct L.
  - now rewrite index_out_of_range_SoA.
  - unfold index, policy_get, AoS_get.
    now rewrite index_out_of_range.
Qed.

Lemma read_at_in_range L (c : Container L) (j : Z) :
  consistent c -> 0 <= j < size c -> exists item, read_at c j = Some item.
Proof.
  intros Hc H. destruct L.
  - rewrite read_at_SoA by assumption.
    exact (@SoA_read_in_range ty den Types (mValues c) (size c) j Hc H).
  - rewrite read_at_AoS by assumption. now apply load_in_range.
Qed.

Lemma in_range_dec (n j : Z) : 0 <= j < n \/ ~ 0 <= j < n.
Proof. lia. Qed.

Lemma read_field_at_of_read_at L (c : Container L) (j : Z) T
    (k : member T Types) :
  consistent c ->
  read_field_at c j k = option_map (tget k) (read_at c j).
Proof.
  intros Hc. destruct (in_range_dec (size c) j) as [H|H].
  - destruct (read_at_in_range c Hc H) as [item Hr]. rewrite Hr. simpl.
    revert Hr. unfold read_at, read_field_at. destruct L.
    + rewrite (@index_consistent_SoA ty den T0 Ts c j Hc H).
      intros Hr.
      exact (@SoA_read_field_of_read ty den Types _ _ _ Hr T k).
    + unfold index, policy_get, AoS_get.
      rewrite index_in_range by exact H.
      unfold view_read, view_read_field, AoS_read, AoS_read_field.
      now intros ->.
  - rewrite read_at_out_of_range by exact H. simpl.
    unfold read_field_at. destruct L.
    + now rewrite index_out_of_range_SoA.
    + unfold index, policy_get, AoS_get. now rewrite index_out_of_range.
Qed.

(** An assignment that writes replaces field [k] of record [i] and nothing
    else. *)
Lemma assign_effect L (c : Container L) (i : Z) T (k : member T Types)
    (e : operand (den T)) :
  consistent c -> 0 <= i < size c ->
  L = AoS \/ (exists v, e = Rvalue v) ->
  exists c' view' item,
    assign_field_at c i k e = Some (c', view') /\
    size c' = size c /\ consistent c' /\
    read_at c i = Some item /\
    read_at c' i = Some (tset k (operand_value e) item) /\
    forall j, j <> i -> read_at c' j = read_at c j.
Proof.
  intros Hc Hi Hcase.
  destruct (read_at_in_range c Hc Hi) as [item Hitem].
  destruct L.
  - destruct Hcase as [Habs|[v ->]]; [discriminate|].
    exists (written c i k v), (fresh_view den Types i), item.
    pose proof (@size_written ty den T0 Ts c i T k v) as Hs.
    pose proof (@consistent_written ty den T0 Ts c i T k v Hc) as Hc'.
    split; [now apply SoA_assign_rvalue|].
    split; [exact Hs|]. split; [exact Hc'|]. split; [exact Hitem|].
    rewrite read_at_SoA in Hitem by assumption.
    split.
    + rewrite read_at_SoA by (try rewrite Hs; assumption).
      exact (@SoA_read_tset_same ty den Types T k (mValues c) (size c) i v
               item Hc Hi Hitem).
    + intros j Hj. destruct (in_range_dec (size c) j) as [H|H].
      * rewrite !read_at_SoA by (try rewrite Hs; assumption).
        apply SoA_read_tset_other; [lia|congruence].
      * rewrite !read_at_out_of_range by (try rewrite Hs; exact H).
        reflexivity.
  - destruct (@AoS_assign ty den T0 Ts c i T k e Hi) as [item' [Hl Ha]].
    rewrite read_at_AoS in Hitem by exact Hi.
    assert (item' = item) by congruence. subst item'.
    eexists; eexists; exists item.
    split; [exact Ha|].
    assert (Hs : forall w,
               Vector.size (Vector.update (mValues c) (Z.to_nat i) w)
               = Vector.size (mValues c)).
    { intros w. unfold Vector.size. now rewrite length_update. }
    split; [apply Hs|]. split; [exact I|].
    split; [now rewrite read_at_AoS by exact Hi|].
    split.
    + rewrite read_at_AoS by (unfold size; cbn [mValues]; simpl;
                              unfold AoS_size; rewrite Hs; exact Hi).
      cbn [mValues]. now apply load_update_same.
    + intros j Hj. destruct (in_range_dec (size c) j) as [H|H].
      * rewrite !read_at_AoS
          by (try (unfold size; cbn [mValues]; simpl; unfold AoS_size;
                   rewrite Hs); exact H).
        cbn [mValues]. apply load_update_apart; [lia|congruence].
      * rewrite !read_at_out_of_range
          by (try (unfold size; cbn [mValues]; simpl; unfold AoS_size;
                   rewrite Hs); exact H).
        reflexivity.
Qed.

Lemma read_at_push_back_before L (c : Container L) (val : TItem den Types)
    (j : Z) :
  consistent c -> 0 <= j < size c ->
  read_at (push_back c val) j = read_at c j.
Proof.
  intros Hc Hj.
  pose proof (@consistent_push_back _ _ _ _ _ c val Hc) as Hc'.
  assert (Hs : size (push_back c val) = size c + 1).
  { destruct L; unfold size; simpl;
      [unfold SoA_size, SoA_push_back; simpl|unfold AoS_size, AoS_push_back];
      apply size_push_back. }
  destruct L.
  - rewrite !read_at_SoA by (try rewrite Hs; try assumption; lia).
    exact (@SoA_read_doPushBack_before ty den Types (mValues c) val
             (size c) j Hc Hj).
  - rewrite !read_at_AoS by (try rewrite Hs; try assumption; lia).
    now apply load_push_back_before.
Qed.

Lemma read_at_push_back_last L (c : Container L) (val : TItem den Types) :
  consistent c -> read_at (push_back c val) (size c) = Some val.
Proof.
  intros Hc. pose proof (size_nonneg_container c) as Hn.
  pose proof (@consistent_push_back _ _ _ _ _ c val Hc) as Hc'.
  assert (Hs : size (push_back c val) = size c + 1).
  { destruct L; unfold size; simpl;
      [unfold SoA_size, SoA_push_back; simpl|unfold AoS_size, AoS_push_back];
      apply size_push_back. }
  destruct L.
  - rewrite read_at_SoA by (try rewrite Hs; try assumption; lia).
    exact (@SoA_read_doPushBack ty den Types (mValues c) val (size c) Hc).
  - rewrite read_at_AoS by (rewrite Hs; lia).
    apply load_push_back_last.
Qed.

Lemma size_resize_small L (c : Container L) (n : Z) :
  0 <= n < unsigned_modulus -> size (resize init c n) = n.
Proof.
  intros H. destruct L.
  - rewrite size_resize_SoA. now apply to_unsigned_small.
  - apply size_resize_AoS. lia.
Qed.

Lemma read_at_resize L (c : Container L) (n j : Z) :
  consistent c -> 0 <= n < unsigned_modulus -> 0 <= j < n ->
  read_at (resize init c n) j =
  if j <? size c then read_at c j else Some (TItem_init den init Types).
Proof.
  intros Hc Hn Hj.
  pose proof (@size_resize_small L c n Hn) as Hs.
  pose proof (consistent_resize init c n) as Hc'.
  destruct (j <? size c) eqn:E;
    [apply Z.ltb_lt in E|apply Z.ltb_ge in E]; destruct L.
  - rewrite !read_at_SoA by (try rewrite Hs; try assumption; lia).
    cbn [resize mValues policy_resize]. unfold SoA_resize.
    rewrite to_unsigned_small by exact Hn.
    apply SoA_read_doResize_prefix with (N := size c);
      [exact Hc|lia|lia].
  - rewrite !read_at_AoS by (try rewrite Hs; lia).
    apply load_resize_prefix; [split; [lia|exact E]|lia].
  - rewrite !read_at_SoA by (try rewrite Hs; try assumption; lia).
    cbn [resize mValues policy_resize]. unfold SoA_resize.
    rewrite to_unsigned_small by exact Hn.
    pose proof (size_nonneg_container c).
    apply SoA_read_doResize_fill with (N := size c);
      [exact Hc|lia|lia].
  - rewrite !read_at_AoS by (try rewrite Hs; lia).
    apply load_resize_fill. split; [exact E|lia].
Qed.

End ContainerContents.

Lemma map_const_repeat (A B : Type) (f : A -> B) (x : B) (l : list A) :
  (forall a, In a l -> f a = x) -> map f l = repeat x (length l).
Proof.
  induction l as [|a l IH]; intros H; simpl; [reflexivity|].
  rewrite (H a) by (left; reflexivity).
  f_equal. apply IH. intros b Hb. apply H. now right.
Qed.

Section ContainerTheorems.
Variable ty : Type.
Variable den : ty -> Type.
Variable init : forall T : ty, den T.
Variable T0 : ty.
Variable Ts : list ty.

Local Abbreviation Types := (T0 :: Ts).
Local Abbreviation Container := (BaseContainer den T0 Ts).
Local Abbreviation ctor := (BaseContainer_ctor den init T0 Ts).
Local Abbreviation sizes := (field_sizes den Types).
Local Abbreviation empty L :=
  (Build_BaseContainer den T0 Ts L (policy_empty den T0 Ts L)).

Lemma consistent_empty L : consistent (empty L).
Proof.
  destruct L; [|exact I]. cbv beta iota delta [consistent].
  exact (field_sizes_empty den Types).
Qed.

Lemma size_empty L : size (empty L) = 0.
Proof. destruct L; reflexivity. Qed.

(** X1. In [AoS] every assignment [std::get<Id>( c[i] ) = e], and in [SoA]
    the assignment of an rvalue, at an in-bounds position [i] keeps the size,
    makes field [Id] of record [i] read as the assigned value, and leaves
    every other field of every record reading as before. *)
Theorem assignment_writes_one_field L (c : Container L) (i : Z) T
    (k : member T Types) (e : operand (den T)) :
  consistent c -> 0 <= i < size c ->
  L = AoS \/ (exists v, e = Rvalue v) ->
  exists c' view',
    assign_field_at c i k e = Some (c', view') /\
    size c' = size c /\
    read_field_at c' i k = Some (operand_value e) /\
    forall j T' (k' : member T' Types),
      j <> i \/ member_index k' <> member_index k ->
      read_field_at c' j k' = read_field_at c j k'.
Proof.
  intros Hc Hi Hcase.
  destruct (@assign_effect ty den T0 Ts L c i T k e Hc Hi Hcase)
    as [c' [view' [item [Ha [Hs [Hc' [Hr [Hr' Hother]]]]]]]].
  exists c', view'. split; [exact Ha|]. split; [exact Hs|]. split.
  - rewrite read_field_at_of_read_at by exact Hc'.
    rewrite Hr'. simpl. now rewrite tget_tset_same.
  - intros j T' k' Hjk.
    rewrite !read_field_at_of_read_at by assumption.
    destruct (Z.eq_dec j i) as [->|Hne].
    + destruct Hjk as [Habs|Hk]; [congruence|].
      rewrite Hr, Hr'. simpl. now rewrite tget_tset_other.
    + now rewrite Hother.
Qed.

(** X2. [push_back] leaves the records already in the container as they
    were: every position below the old size reads the same record, and the
    same fields, after the call. *)
Theorem push_back_keeps_records L (c : Container L) (val : TItem den Types)
    (j : Z) :
  consistent c -> 0 <= j < size c ->
  read_at (push_back c val) j = read_at c j /\
  forall T (k : member T Types),
    read_field_at (push_back c val) j k = read_field_at c j k.
Proof.
  intros Hc Hj.
  pose proof (@read_at_push_back_before ty den T0 Ts L c val j Hc Hj) as Hr.
  split; [exact Hr|]. intros T k.
  rewrite !read_field_at_of_read_at
    by (try apply consistent_push_back; assumption).
  now rewrite Hr.
Qed.

(** X3. [resize(n)] with [n] below [2^32] gives size [n], keeps the records
    at the positions below both the old size and [n], and makes every new
    position read as the value-initialised record. *)
Theorem resize_keeps_prefix_and_value_initialises L (c : Container L)
    (n : Z) :
  consistent c -> 0 <= n < unsigned_modulus ->
  size (resize init c n) = n /\
  (forall j, 0 <= j < n -> j < size c ->
             read_at (resize init c n) j = read_at c j) /\
  (forall j, size c <= j < n ->
             read_at (resize init c n) j = Some (TItem_init den init Types)).
Proof.
  intros Hc Hn. pose proof (size_nonneg_container c) as H0.
  split; [now apply size_resize_small|]. split.
  - intros j Hj Hlt.
    rewrite (@read_at_resize ty den init T0 Ts L c n j Hc Hn Hj).
    apply Z.ltb_lt in Hlt. now rewrite Hlt.
  - intros j Hj.
    rewrite (@read_at_resize ty den init T0 Ts L c n j Hc Hn) by lia.
    destruct (j <? size c) eqn:E; [apply Z.ltb_lt in E; lia|reflexivity].
Qed.

(** X4. A container constructed with a size [N] below [2^32] has size [N]
    and shows the value-initialised record at each of its [N] positions, in
    both layouts. *)
Theorem ctor_value_initialises L (N : Z) :
  0 <= N < unsigned_modulus ->
  size (ctor L N) = N /\
  (forall j, 0 <= j < N ->
             read_at (ctor L N) j = Some (TItem_init den init Types)) /\
  observe (ctor L N) =
  repeat (Some (TItem_init den init Types)) (Z.to_nat N).
Proof.
  intros HN.
  assert (Hs : size (ctor L N) = N) by now apply size_resize_small.
  assert (Hr : forall j, 0 <= j < N ->
                 read_at (ctor L N) j = Some (TItem_init den init Types)).
  { intros j Hj. unfold BaseContainer_ctor.
    rewrite (@read_at_resize ty den init T0 Ts L (empty L) N j
               (consistent_empty L) HN Hj).
    rewrite size_empty.
    destruct (j <? 0) eqn:E; [apply Z.ltb_lt in E; lia|reflexivity]. }
  split; [exact Hs|]. split; [exact Hr|].
  unfold observe. rewrite Hs.
  rewrite map_const_repeat with (x := Some (TItem_init den init Types)).
  - unfold positions. now rewrite length_map, length_seq.
  - intros j Hj. apply positions_in in Hj. now apply Hr.
Qed.

(** X5. A [resize] to [n] followed by a [resize] to [m], where
    [m <= n < 2^32], leaves the container that a single [resize] to [m]
    leaves. *)
Theorem resize_then_shrink L (c : Container L) (n m : Z) :
  0 <= m <= n -> n < unsigned_modulus ->
  resize init (resize init c n) m = resize init c m.
Proof.
  intros Hm Hn. unfold resize. cbn [mValues]. f_equal. destruct L.
  - cbn [policy_resize]. unfold SoA_resize.
    rewrite !to_unsigned_small by lia.
    apply doResize_doResize. lia.
  - cbn [policy_resize]. unfold AoS_resize.
    apply resize_resize. lia.
Qed.

(** X6. On a container of size below [2^32], [resize(size())] changes
    nothing, and [push_back(v)] followed by a [resize] to the old size gives
    the old container back. *)
Theorem push_back_then_resize_back L (c : Container L)
    (val : TItem den Types) :
  consistent c -> size c < unsigned_modulus ->
  resize init c (size c) = c /\
  resize init (push_back c val) (size c) = c.
Proof.
  intros Hc Hs. pose proof (size_nonneg_container c) as H0.
  destruct c as [s]. unfold resize, push_back. cbn [mValues].
  destruct L.
  - cbn [policy_resize policy_push_back]. unfold SoA_resize, SoA_push_back.
    rewrite to_unsigned_small by lia.
    split; f_equal.
    + exact (@doResize_to_size ty den init Types s _ Hc).
    + exact (@doResize_doPushBack ty den init Types s val _ Hc).
  - cbn [policy_resize policy_push_back].
    unfold AoS_resize, AoS_push_back.
    split; f_equal.
    + apply resize_to_size.
    + apply resize_push_back.
Qed.

(** X14. Every container a program of [push_back], [resize] and field
    assignments reaches from a newly constructed [SoA] container has all its
    per-field arrays of the length [size()] returns. *)
Theorem SoA_arrays_stay_equally_long (N : Z)
    (prog : list (statement den T0 Ts)) :
  Forall (fun c : Container SoA =>
            Forall (fun n => n = size c) (sizes (mValues c)))
         (states init (ctor SoA N) prog).
Proof.
  exact (@consistent_states ty den init T0 Ts SoA prog (ctor SoA N)
           (@consistent_ctor ty den init T0 Ts SoA N)).
Qed.

End ContainerTheorems.

(** ** [Iterator]: stepping and comparing *)

Lemma to_size_t_add_sub (p n : Z) :
  0 <= p < size_t_modulus ->
  to_size_t (to_size_t (p + n) - n) = p /\
  to_size_t (to_size_t (p - n) + n) = p.
Proof.
  intros H. unfold to_size_t.
  rewrite Zminus_mod_idemp_l, Zplus_mod_idemp_l.
  replace (p + n - n) with p by lia. replace (p - n + n) with p by lia.
  split; now apply Z.mod_small.
Qed.

(** X7. On an iterator whose position is a [std::size_t], [-=] undoes [+=]
    and [+=] undoes [-=] for every step, so [--] undoes [++] and [++] undoes
    [--], also across the wrap-around: one step back from position 0 is the
    maximal position. *)
Theorem Iterator_steps_undo_each_other (it : Iterator) (n : Z) :
  0 <= mIterPosition it < size_t_modulus ->
  Iterator_sub_assign (Iterator_add_assign it n) n = it /\
  Iterator_add_assign (Iterator_sub_assign it n) n = it /\
  Iterator_decr (Iterator_incr it) = it /\
  Iterator_incr (Iterator_decr it) = it /\
  mIterPosition (Iterator_decr (Iterator_ctor (mContainer it) 0)) = size_t_max.
Proof.
  intros H. destruct it as [a p]. cbn [mIterPosition mContainer] in *.
  unfold Iterator_decr, Iterator_incr, Iterator_sub_assign,
    Iterator_add_assign, Iterator_ctor.
  cbn [mIterPosition mContainer].
  destruct (to_size_t_add_sub n H) as [H1 H2].
  destruct (to_size_t_add_sub 1 H) as [H3 H4].
  rewrite H1, H2, H3, H4. repeat split.
Qed.

Section IteratorTheorems.
Variable ty : Type.
Variable den : ty -> Type.
Variable init : forall T : ty, den T.
Variable T0 : ty.
Variable Ts : list ty.

Local Abbreviation Types := (T0 :: Ts).
Local Abbreviation Container := (BaseContainer den T0 Ts).

(** X8. Advancing [begin()] by [n] gives an iterator that dereferences to
    the indexed access [c[n]] of its container, and two advances in a row
    are one advance by the sum. *)
Theorem Iterator_advance L (heap : list (Container L)) (a : nat)
    (c : Container L) (it : Iterator) (m n : Z) :
  nth_error heap a = Some c -> 0 <= n < size_t_modulus ->
  Iterator_deref heap (Iterator_add_assign (begin a) n) = index c n /\
  Iterator_add_assign (Iterator_add_assign it m) n =
  Iterator_add_assign it (m + n).
Proof.
  intros Hc Hn. split.
  - unfold Iterator_deref, Iterator_add_assign, begin, Iterator_ctor.
    cbn [mContainer mIterPosition]. rewrite Hc.
    now rewrite Z.add_0_l, to_size_t_small.
  - unfold Iterator_add_assign. cbn [mContainer mIterPosition]. f_equal.
    unfold to_size_t. rewrite Zplus_mod_idemp_l. f_equal. lia.
Qed.


(** X10. After [push_back(v)], the iterator one step before [end()]
    dereferences to a view that reads as [v]. *)
Theorem last_record_is_before_end L (heap : list (Container L)) (a : nat)
    (c : Container L) (val : TItem den Types) :
  consistent c -> size c < size_t_modulus ->
  nth_error heap a = Some (push_back c val) ->
  exists view,
    Iterator_deref heap (Iterator_decr (end_ a (push_back c val))) =
    Some view /\
    view_read (push_back c val) view = Some val.
Proof.
  intros Hc Hs Hh. pose proof (size_nonneg_container c) as H0.
  pose proof (@read_at_push_back_last ty den T0 Ts L c val Hc) as Hr.
  assert (Hsz : size (push_back c val) = size c + 1).
  { destruct L; unfold size; simpl;
      [unfold SoA_size, SoA_push_back; simpl|unfold AoS_size, AoS_push_back];
      apply size_push_back. }
  unfold Iterator_deref, Iterator_decr, Iterator_sub_assign, end_,
    Iterator_ctor.
  cbn [mContainer mIterPosition]. rewrite Hh, Hsz.
  replace (size c + 1 - 1) with (size c) by lia.
  rewrite to_size_t_small by lia.
  unfold read_at in Hr.
  destruct (index (push_back c val) (size c)) as [view|]; [|discriminate].
  exists view. split; [reflexivity|exact Hr].
Qed.

End IteratorTheorems.

(** ** The range-based loop with an assignment as its body *)

Lemma update_update (A : Type) (l : list A) (n : nat) (x y : A) :
  Vector.update (Vector.update l n x) n y = Vector.update l n y.
Proof.
  revert n. induction l as [|a l IH]; intros [|n]; simpl; auto.
  now rewrite IH.
Qed.

Section LoopFacts.
Variable ty : Type.
Variable den : ty -> Type.
Variable T0 : ty.
Variable Ts : list ty.

Local Abbreviation Types := (T0 :: Ts).
Local Abbreviation Container := (BaseContainer den T0 Ts).

Lemma deref_assign_at L (heap : list (Container L)) (a : nat) (p : Z)
    (c : Container L) T (k : member T Types) (e : operand (den T)) :
  nth_error heap a = Some c ->
  deref_assign heap (Iterator_ctor (Some a) p) k e =
  match assign_field_at c p k e with
  | Some (c', _) => Some (Vector.update heap a c')
  | None => None
  end.
Proof.
  intros H. unfold deref_assign, Iterator_deref, assign_field_at, Iterator_ctor.
  cbn [mContainer mIterPosition]. rewrite H.
  destruct (index c p); reflexivity.
Qed.

(** The loop entered at position [p], the records below [p] assigned and
    the others untouched, assigns the remaining records and stops. *)
Lemma range_for_each_assign_from L (heap : list (Container L)) (a : nat)
    (c : Container L) T (k : member T Types) (e : operand (den T)) :
  nth_error heap a = Some c -> size c < size_t_modulus ->
  L = AoS \/ (exists v, e = Rvalue v) ->
  forall (fuel : nat) (p : Z) (cp : Container L),
    0 <= p <= size c -> (Z.to_nat (size c - p) < fuel)%nat ->
    size cp = size c -> consistent cp ->
    (forall j, 0 <= j < p ->
       exists item, read_at c j = Some item /\
                    read_at cp j = Some (tset k (operand_value e) item)) ->
    (forall j, p <= j -> read_at cp j = read_at c j) ->
    exists c',
      range_for_each fuel (fun h it => deref_assign h it k e)
        (Vector.update heap a cp) (Iterator_ctor (Some a) p) (end_ a c)
      = Some (Vector.update heap a c') /\
      size c' = size c /\ consistent c' /\
      forall j, 0 <= j < size c ->
        exists item, read_at c j = Some item /\
                     read_at c' j = Some (tset k (operand_value e) item).
Proof.
  intros Hh Hmax Hcase.
  assert (Ha : (a < length heap)%nat)
    by (apply nth_error_Some; congruence).
  induction fuel as [|fuel IH]; intros p cp Hp Hf Hs Hc Hdone Htodo; [lia|].
  cbn [range_for_each]. unfold Iterator_ne, end_, Iterator_ctor.
  cbn [mIterPosition].
  destruct (p =? size c) eqn:E; cbn [negb].
  - apply Z.eqb_eq in E. subst p. exists cp.
    split; [reflexivity|]. split; [exact Hs|]. split; [exact Hc|exact Hdone].
  - apply Z.eqb_neq in E.
    change {| mContainer := Some a; mIterPosition := p |}
      with (Iterator_ctor (Some a) p).
    rewrite (@deref_assign_at L (Vector.update heap a cp) a p cp T k e)
      by (now apply nth_error_update_same).
    assert (Hi : 0 <= p < size cp) by lia.
    destruct (@assign_effect ty den T0 Ts L cp p T k e Hc Hi Hcase)
      as [c1 [view1 [item [Has [Hs1 [Hc1 [Hr [Hr1 Hother]]]]]]]].
    rewrite Has, update_update.
    unfold Iterator_incr, Iterator_add_assign, Iterator_ctor.
    cbn [mContainer mIterPosition].
    rewrite to_size_t_small by lia.
    apply (IH (p + 1) c1); try lia; try assumption.
    + intros j Hj. destruct (Z.eq_dec j p) as [->|Hne].
      * exists item. split; [|exact Hr1].
        rewrite <- Hr. symmetry. apply Htodo. lia.
      * rewrite Hother by exact Hne. apply Hdone. lia.
    + intros j Hj. rewrite Hother by lia. apply Htodo. lia.
Qed.

Lemma range_for_each_assign L (heap : list (Container L)) (a : nat)
    (c : Container L) T (k : member T Types) (e : operand (den T))
    (fuel : nat) :
  nth_error heap a = Some c -> consistent c -> size c < size_t_modulus ->
  L = AoS \/ (exists v, e = Rvalue v) ->
  (Z.to_nat (size c) < fuel)%nat ->
  exists c',
    range_for_each fuel (fun h it => deref_assign h it k e)
      heap (begin a) (end_ a c)
    = Some (Vector.update heap a c') /\
    size c' = size c /\ consistent c' /\
    forall j, 0 <= j < size c ->
      exists item, read_at c j = Some item /\
                   read_at c' j = Some (tset k (operand_value e) item).
Proof.
  intros Hh Hc Hmax Hcase Hf.
  pose proof (size_nonneg_container c) as H0.
  assert (Hf0 : (Z.to_nat (size c - 0) < fuel)%nat)
    by (rewrite Z.sub_0_r; exact Hf).
  assert (Hdone : forall j, 0 <= j < 0 ->
            exists item, read_at c j = Some item /\
              read_at c j = Some (tset k (operand_value e) item))
    by (intros j Hj; lia).
  pose proof (@range_for_each_assign_from L heap a c T k e Hh Hmax Hcase
                fuel 0 c (conj (Z.le_refl 0) H0) Hf0 eq_refl Hc Hdone
                (fun j _ => eq_refl)) as H.
  rewrite (@update_nth_error _ heap a c Hh) in H. exact H.
Qed.

(** X11. A range-based loop over a container whose body assigns [e] to field
    [Id] of the record the iterator dereferences to (any [e] in [AoS], an
    rvalue in [SoA]) terminates, changes only that container in memory,
    keeps its size, makes field [Id] of every record read as the assigned
    value and leaves the other fields of every record as they were. *)
Theorem for_each_assigns_the_field_everywhere L (heap : list (Container L))
    (a : nat) (c : Container L) T (k : member T Types) (e : operand (den T))
    (fuel : nat) :
  nth_error heap a = Some c -> consistent c -> size c < size_t_modulus ->
  L = AoS \/ (exists v, e = Rvalue v) ->
  (Z.to_nat (size c) < fuel)%nat ->
  exists heap' c',
    range_for_each fuel (fun h it => deref_assign h it k e)
      heap (begin a) (end_ a c) = Some heap' /\
    nth_error heap' a = Some c' /\
    (forall b, b <> a -> nth_error heap' b = nth_error heap b) /\
    size c' = size c /\
    forall j, 0 <= j < size c ->
      read_field_at c' j k = Some (operand_value e) /\
      forall T' (k' : member T' Types),
        member_index k' <> member_index k ->
        read_field_at c' j k' = read_field_at c j k'.
Proof.
  intros Hh Hc Hmax Hcase Hf.
  destruct (@range_for_each_assign L heap a c T k e fuel Hh Hc Hmax Hcase Hf)
    as [c' [Hrun [Hs [Hc' Hall]]]].
  exists (Vector.update heap a c'), c'.
  split; [exact Hrun|]. split.
  { apply nth_error_update_same. apply nth_error_Some. congruence. }
  split; [intros b Hb; now apply nth_error_update_other|].
  split; [exact Hs|].
  intros j Hj. destruct (Hall j Hj) as [item [Hr Hr']].
  split.
  - rewrite read_field_at_of_read_at by exact Hc'.
    rewrite Hr'. simpl. now rewrite tget_tset_same.
  - intros T' k' Hk.
    rewrite !read_field_at_of_read_at by assumption.
    rewrite Hr, Hr'. simpl. now rewrite tget_tset_other.
Qed.

End LoopFacts.

(** ** The two layouts on the same program *)

Section LayoutsAgree.
Variable ty : Type.
Variable den : ty -> Type.
Variable init : forall T : ty, den T.
Variable T0 : ty.
Variable Ts : list ty.

Local Abbreviation ctor := (BaseContainer_ctor den init T0 Ts).

(** X13. Constructed with the same size below [2^32] and run on the same
    program of [push_back] calls, [resize] calls with sizes below [2^32] and
    assignments of rvalues, an [AoS] and a [SoA] container show the same
    records at every position initially and after each statement, and stop
    at the same statement when one indexes out of range. *)
Theorem layouts_agree_below_2_32 (N : Z) (prog : list (statement den T0 Ts)) :
  0 <= N < unsigned_modulus -> Forall (@portable ty den T0 Ts) prog ->
  observe (ctor AoS N) = observe (ctor SoA N) /\
  length (states init (ctor AoS N) prog) =
  length (states init (ctor SoA N) prog) /\
  map (fun c => observe c) (states init (ctor AoS N) prog) =
  map (fun c => observe c) (states init (ctor SoA N) prog).
Proof.
  intros HN Hp.
  pose proof (@same_records_ctor ty den init T0 Ts N HN) as H.
  pose proof (@layouts_agree_on_portable ty den init T0 Ts prog _ _ H Hp)
    as Hm.
  split; [now apply same_records_observe|]. split; [|exact Hm].
  apply (f_equal (@length _)) in Hm. now rewrite !length_map in Hm.
Qed.

End LayoutsAgree.

(** ** [main] *)

Lemma container_of_main_value_initialised (N : Z) :
  0 <= N < unsigned_modulus ->
  size (container_ SoA N) = N /\
  forall j, 0 <= j < N ->
    read_at (container_ SoA N) j =
    Some (TItem_init field_type value_init (eMyDouble :: Rest)).
Proof.
  intros HN. unfold container_, BaseContainer_ctor. split.
  - now apply size_resize_small.
  - intros j Hj.
    rewrite read_at_resize; try assumption.
    + destruct (j <? _) eqn:E; [|reflexivity].
      apply Z.ltb_lt in E. change (j < 0) in E. lia.
    + cbv beta iota delta [consistent].
      exact (field_sizes_empty field_type (eMyDouble :: Rest)).
Qed.

(** X12. For every [argc], [main] terminates, writes the line
    ["container size 1000 "] to [std::cout], and leaves a container of 1000
    records in each of which [myDouble()] is [argc] converted to [double] and
    the other fields are value-initialised. *)
Theorem main_assigns_argc_to_every_record (argc : Z) (fuel : nat) :
  (1000 < fuel)%nat ->
  exists c,
    main fuel argc =
    Some (("container size 1000 " ++ String (Ascii.ascii_of_nat 10) "")%string,
          c) /\
    size c = 1000 /\
    forall j, 0 <= j < 1000 ->
      read_at c j =
      Some (double_of_int argc,
            (x00, (EmptyString, ({| mPad := repeat x00 1500 |}, tt)))).
Proof.
  intros Hf.
  assert (HN : 0 <= 1000 < unsigned_modulus) by (unfold unsigned_modulus; lia).
  destruct (@container_of_main_value_initialised 1000 HN) as [Hs Hinit].
  assert (Hf' : (Z.to_nat (size (container_ SoA 1000)) < fuel)%nat)
    by (rewrite Hs; lia).
  assert (Hmax : size (container_ SoA 1000) < size_t_modulus)
    by (rewrite Hs; unfold size_t_modulus; lia).
  destruct (@range_for_each_assign Component field_type eMyDouble Rest SoA
              [container_ SoA 1000] 0 (container_ SoA 1000) eMyDouble myDouble
              (Rvalue (double_of_int argc)) fuel eq_refl
              (@consistent_ctor _ field_type value_init eMyDouble Rest SoA 1000)
              Hmax (or_intror (ex_intro _ _ eq_refl)) Hf')
    as [c' [Hrun [Hs' [_ Hall]]]].
  exists c'. unfold main. rewrite Hrun. cbn [Vector.update].
  rewrite Hs. split; [reflexivity|]. split; [now rewrite Hs', Hs|].
  intros j Hj. rewrite Hs in Hall.
  destruct (Hall j Hj) as [item [Hr Hr']].
  rewrite (Hinit j Hj) in Hr. injection Hr as <-. exact Hr'.
Qed.

(** ** The further properties on the container of [main] *)

Lemma assignment_writes_one_field_witness :
  consistent (container_ AoS 2) /\
  0 <= 1 < size (container_ AoS 2) /\
  exists c' view',
    assign_field_at (container_ AoS 2) 1 myChar (Lvalue "y" x07)
    = Some (c', view') /\
    read_field_at c' 1 myChar = Some x07 /\
    read_field_at c' 0 myChar = read_field_at (container_ AoS 2) 0 myChar /\
    read_field_at c' 1 myDouble = read_field_at (container_ AoS 2) 1 myDouble.
Proof.
  assert (Hc : consistent (container_ AoS 2)) by apply consistent_ctor.
  assert (Hi : 0 <= 1 < size (container_ AoS 2))
    by (vm_compute; intuition congruence).
  split; [exact Hc|]. split; [exact Hi|].
  destruct (@assignment_writes_one_field Component field_type eMyDouble Rest
              AoS (container_ AoS 2) 1 eMyChar myChar (Lvalue "y" x07)
              Hc Hi (or_introl eq_refl))
    as [c' [view' [Ha [_ [Hr Hother]]]]].
  exists c', view'. split; [exact Ha|]. split; [exact Hr|]. split.
  - apply Hother. left. discriminate.
  - apply Hother. right. discriminate.
Defined.

Lemma push_back_keeps_records_witness :
  consistent (container_ SoA 2) /\
  0 <= 1 < size (container_ SoA 2) /\
  read_at (push_back (container_ SoA 2) item_1_5_7) 1
  = read_at (container_ SoA 2) 1.
Proof.
  assert (Hc : consistent (container_ SoA 2)) by apply consistent_ctor.
  assert (Hi : 0 <= 1 < size (container_ SoA 2))
    by (vm_compute; intuition congruence).
  split; [exact Hc|]. split; [exact Hi|].
  exact (proj1 (@push_back_keeps_records Component field_type eMyDouble Rest
                  SoA (container_ SoA 2) item_1_5_7 1 Hc Hi)).
Defined.

Lemma resize_keeps_prefix_and_value_initialises_witness :
  consistent (push_back (container_ SoA 0) item_1_5_7) /\
  0 <= 3 < unsigned_modulus /\
  size (resize value_init (push_back (container_ SoA 0) item_1_5_7) 3) = 3 /\
  read_at (resize value_init (push_back (container_ SoA 0) item_1_5_7) 3) 0
  = read_at (push_back (container_ SoA 0) item_1_5_7) 0 /\
  read_at (resize value_init (push_back (container_ SoA 0) item_1_5_7) 3) 2
  = Some (TItem_init field_type value_init (eMyDouble :: Rest)).
Proof.
  assert (Hc : consistent (push_back (container_ SoA 0) item_1_5_7))
    by (apply consistent_push_back; apply consistent_ctor).
  assert (Hn : 0 <= 3 < unsigned_modulus)
    by (vm_compute; intuition congruence).
  split; [exact Hc|]. split; [exact Hn|].
  destruct (@resize_keeps_prefix_and_value_initialises Component field_type
              value_init eMyDouble Rest SoA
              (push_back (container_ SoA 0) item_1_5_7) 3 Hc Hn)
    as [Hs [Hkeep Hfill]].
  split; [exact Hs|]. split.
  - apply Hkeep; vm_compute; intuition congruence.
  - apply Hfill. vm_compute; intuition congruence.
Defined.

Lemma ctor_value_initialises_witness :
  0 <= 3 < unsigned_modulus /\
  size (container_ SoA 3) = 3 /\
  observe (container_ AoS 3) =
  repeat (Some (TItem_init field_type value_init (eMyDouble :: Rest))) 3.
Proof.
  assert (Hn : 0 <= 3 < unsigned_modulus)
    by (vm_compute; intuition congruence).
  split; [exact Hn|]. split.
  - exact (proj1 (@ctor_value_initialises Component field_type value_init
                    eMyDouble Rest SoA 3 Hn)).
  - exact (proj2 (proj2 (@ctor_value_initialises Component field_type
                           value_init eMyDouble Rest AoS 3 Hn))).
Defined.

Lemma resize_then_shrink_witness :
  0 <= 2 <= 5 /\ 5 < unsigned_modulus /\
  resize value_init (resize value_init (container_ SoA 1) 5) 2
  = resize value_init (container_ SoA 1) 2.
Proof.
  assert (Hm : 0 <= 2 <= 5) by lia.
  assert (Hn : 5 < unsigned_modulus) by reflexivity.
  split; [exact Hm|]. split; [exact Hn|].
  exact (@resize_then_shrink Component field_type value_init eMyDouble Rest
           SoA (container_ SoA 1) 5 2 Hm Hn).
Defined.

Lemma push_back_then_resize_back_witness :
  consistent (container_ SoA 2) /\
  size (container_ SoA 2) < unsigned_modulus /\
  resize value_init (push_back (container_ SoA 2) item_1_5_7)
    (size (container_ SoA 2))
  = container_ SoA 2.
Proof.
  assert (Hc : consistent (container_ SoA 2)) by apply consistent_ctor.
  assert (Hs : size (container_ SoA 2) < unsigned_modulus) by reflexivity.
  split; [exact Hc|]. split; [exact Hs|].
  exact (proj2 (@push_back_then_resize_back Component field_type value_init
                  eMyDouble Rest SoA (container_ SoA 2) item_1_5_7 Hc Hs)).
Defined.

Lemma Iterator_steps_undo_each_other_witness :
  0 <= mIterPosition (begin 0) < size_t_modulus /\
  Iterator_incr (Iterator_decr (begin 0)) = begin 0 /\
  mIterPosition (Iterator_decr (begin 0)) = size_t_max.
Proof.
  assert (H : 0 <= mIterPosition (begin 0) < size_t_modulus)
    by (vm_compute; intuition congruence).
  split; [exact H|].
  destruct (@Iterator_steps_undo_each_other (begin 0) 7 H)
    as [_ [_ [_ [Hid Hmax]]]].
  split; [exact Hid|exact Hmax].
Defined.

Lemma Iterator_advance_witness :
  nth_error [container_ SoA 3] 0 = Some (container_ SoA 3) /\
  0 <= 2 < size_t_modulus /\
  Iterator_deref [container_ SoA 3] (Iterator_add_assign (begin 0) 2)
  = index (container_ SoA 3) 2.
Proof.
  assert (Hn : 0 <= 2 < size_t_modulus)
    by (vm_compute; intuition congruence).
  split; [reflexivity|]. split; [exact Hn|].
  exact (proj1 (@Iterator_advance Component field_type eMyDouble Rest SoA
                  [container_ SoA 3] 0%nat (container_ SoA 3) (begin 0) 1 2
                  eq_refl Hn)).
Defined.

Lemma last_record_is_before_end_witness :
  consistent (container_ SoA 2) /\
  size (container_ SoA 2) < size_t_modulus /\
  nth_error [push_back (container_ SoA 2) item_1_5_7] 0
  = Some (push_back (container_ SoA 2) item_1_5_7) /\
  exists view,
    Iterator_deref [push_back (container_ SoA 2) item_1_5_7]
      (Iterator_decr (end_ 0 (push_back (container_ SoA 2) item_1_5_7)))
    = Some view /\
    view_read (push_back (container_ SoA 2) item_1_5_7) view
    = Some item_1_5_7.
Proof.
  assert (Hc : consistent (container_ SoA 2)) by apply consistent_ctor.
  assert (Hs : size (container_ SoA 2) < size_t_modulus) by reflexivity.
  split; [exact Hc|]. split; [exact Hs|]. split; [reflexivity|].
  exact (@last_record_is_before_end Component field_type eMyDouble Rest SoA
           [push_back (container_ SoA 2) item_1_5_7] 0%nat
           (container_ SoA 2) item_1_5_7 Hc Hs eq_refl).
Defined.

Lemma for_each_assigns_the_field_everywhere_witness :
  nth_error [container_ AoS 3] 0 = Some (container_ AoS 3) /\
  consistent (container_ AoS 3) /\
  size (container_ AoS 3) < size_t_modulus /\
  (Z.to_nat (size (container_ AoS 3)) < 4)%nat /\
  exists heap' c',
    range_for_each 4
      (fun h it => deref_assign h it myChar (Lvalue "y" x07))
      [container_ AoS 3] (begin 0) (end_ 0 (container_ AoS 3)) = Some heap' /\
    nth_error heap' 0 = Some c' /\
    read_field_at c' 2 myChar = Some x07.
Proof.
  assert (Hc : consistent (container_ AoS 3)) by apply consistent_ctor.
  assert (Hs : size (container_ AoS 3) < size_t_modulus) by reflexivity.
  assert (Hf : (Z.to_nat (size (container_ AoS 3)) < 4)%nat)
    by (vm_compute; repeat constructor).
  split; [reflexivity|]. split; [exact Hc|]. split; [exact Hs|].
  split; [exact Hf|].
  destruct (@for_each_assigns_the_field_everywhere Component field_type
              eMyDouble Rest AoS [container_ AoS 3] 0%nat (container_ AoS 3)
              eMyChar myChar (Lvalue "y" x07) 4%nat eq_refl Hc Hs
              (or_introl eq_refl) Hf)
    as [heap' [c' [Hrun [Hh [_ [_ Hall]]]]]].
  exists heap', c'. split; [exact Hrun|]. split; [exact Hh|].
  apply Hall. vm_compute. intuition congruence.
Defined.

Lemma main_assigns_argc_to_every_record_witness :
  (1000 < 1001)%nat /\
  exists c,
    main 1001 1 =
    Some (("container size 1000 " ++ String (Ascii.ascii_of_nat 10) "")%string,
          c) /\
    size c = 1000.
Proof.
  assert (Hf : (1000 < 1001)%nat) by apply Nat.lt_succ_diag_r.
  split; [exact Hf|].
  destruct (@main_assigns_argc_to_every_record 1 1001%nat Hf)
    as [c [Hm [Hs _]]].
  exists c. split; [exact Hm|exact Hs].
Defined.

Lemma layouts_agree_below_2_32_witness :
  0 <= 2 < unsigned_modulus /\
  Forall (@portable Component field_type eMyDouble Rest)
    [Do (@Call_push_back _ field_type eMyDouble Rest item_1_5_7);
     assign_rvalue;
     Do (Call_resize field_type eMyDouble Rest 1)] /\
  map (fun c => observe c)
    (states value_init (container_ AoS 2)
       [Do (@Call_push_back _ field_type eMyDouble Rest item_1_5_7);
     assign_rvalue;
        Do (Call_resize field_type eMyDouble Rest 1)]) =
  map (fun c => observe c)
    (states value_init (container_ SoA 2)
       [Do (@Call_push_back _ field_type eMyDouble Rest item_1_5_7);
     assign_rvalue;
        Do (Call_resize field_type eMyDouble Rest 1)]).
Proof.
  assert (Hn : 0 <= 2 < unsigned_modulus)
    by (vm_compute; intuition congruence).
  assert (Hp : Forall (@portable Component field_type eMyDouble Rest)
                 [Do (@Call_push_back _ field_type eMyDouble Rest item_1_5_7);
     assign_rvalue;
                  Do (Call_resize field_type eMyDouble Rest 1)]).
  { repeat constructor; vm_compute; congruence. }
  split; [exact Hn|]. split; [exact Hp|].
  exact (proj2 (proj2 (@layouts_agree_below_2_32 Component field_type
                         value_init eMyDouble Rest 2 _ Hn Hp))).
Defined.

(** ** [SoA]: sizes beyond [unsigned] and lvalues in a loop *)

Section SoAFacts.
Variable ty : Type.
Variable den : ty -> Type.
Variable init : forall T : ty, den T.
Variable T0 : ty.
Variable Ts : list ty.

Local Abbreviation Types := (T0 :: Ts).
Local Abbreviation Container := (BaseContainer den T0 Ts).

(** X15. In [SoA], [resize] depends on its argument only modulo [2^32]: two
    sizes with the same remainder leave the same container, so
    [resize(size() + 2^32)] on a container of size below [2^32] changes
    nothing and [resize(2^32)] leaves what [resize(0)] leaves. *)
Theorem SoA_resize_modulo (c : Container SoA) (n m : Z) :
  n mod 2 ^ 32 = m mod 2 ^ 32 ->
  resize init c n = resize init c m /\
  (consistent c -> size c < unsigned_modulus ->
   resize init c (size c + 2 ^ 32) = c) /\
  resize init c (2 ^ 32) = resize init c 0.
Proof.
  intros H.
  assert (E : forall a b, a mod 2 ^ 32 = b mod 2 ^ 32 ->
                          resize init c a = resize init c b).
  { intros a b Hab. unfold resize. cbn [policy_resize]. unfold SoA_resize.
    unfold to_unsigned, unsigned_modulus. now rewrite Hab. }
  split; [now apply E|]. split; [|now apply E].
  intros Hc Hs. pose proof (size_nonneg_container c) as H0.
  rewrite (E (size c + 2 ^ 32) (size c)).
  - unfold resize. cbn [policy_resize]. unfold SoA_resize.
    rewrite to_unsigned_small by lia.
    destruct c as [s]. cbn [mValues] in *. f_equal.
    exact (@doResize_to_size ty den init Types s _ Hc).
  - replace (size c + 2 ^ 32) with (size c + 1 * 2 ^ 32) by lia.
    apply Z.mod_add. lia.
Qed.

Lemma range_for_each_lvalue_from (heap : list (Container SoA)) (a : nat)
    (c : Container SoA) T (k : member T Types) (x : string) (v : den T) :
  nth_error heap a = Some c -> consistent c -> size c < size_t_modulus ->
  forall (fuel : nat) (p : Z),
    0 <= p <= size c -> (Z.to_nat (size c - p) < fuel)%nat ->
    range_for_each fuel (fun h it => deref_assign h it k (Lvalue x v))
      heap (Iterator_ctor (Some a) p) (end_ a c) = Some heap.
Proof.
  intros Hh Hc Hmax.
  induction fuel as [|fuel IH]; intros p Hp Hf; [lia|].
  cbn [range_for_each]. unfold Iterator_ne, end_, Iterator_ctor.
  cbn [mIterPosition].
  destruct (p =? size c) eqn:E; cbn [negb]; [reflexivity|].
  apply Z.eqb_neq in E.
  change {| mContainer := Some a; mIterPosition := p |}
    with (Iterator_ctor (Some a) p).
  rewrite (@deref_assign_at ty den T0 Ts SoA heap a p c T k (Lvalue x v) Hh).
  rewrite (@SoA_assign_lvalue ty den T0 Ts c p T k x v Hc) by lia.
  rewrite (@update_nth_error _ heap a c Hh).
  unfold Iterator_incr, Iterator_add_assign, Iterator_ctor.
  cbn [mContainer mIterPosition].
  rewrite to_size_t_small by lia.
  apply IH; lia.
Qed.

(** X16. In [SoA], a range-based loop whose body assigns an lvalue of the
    field's type to a field of the record the iterator dereferences to
    terminates and leaves memory exactly as it was: no record of the
    container is written. *)
Theorem SoA_for_each_lvalue_writes_nothing (heap : list (Container SoA))
    (a : nat) (c : Container SoA) T (k : member T Types) (x : string)
    (v : den T) (fuel : nat) :
  nth_error heap a = Some c -> consistent c -> size c < size_t_modulus ->
  (Z.to_nat (size c) < fuel)%nat ->
  range_for_each fuel (fun h it => deref_assign h it k (Lvalue x v))
    heap (begin a) (end_ a c) = Some heap.
Proof.
  intros Hh Hc Hmax Hf. pose proof (size_nonneg_container c) as H0.
  apply (@range_for_each_lvalue_from heap a c T k x v Hh Hc Hmax);
    [lia|now rewrite Z.sub_0_r].
Qed.

End SoAFacts.

Lemma SoA_resize_modulo_witness :
  (2 ^ 32 + 1) mod 2 ^ 32 = 1 mod 2 ^ 32 /\
  resize value_init (container_ SoA 3) (2 ^ 32 + 1)
  = resize value_init (container_ SoA 3) 1.
Proof.
  assert (H : (2 ^ 32 + 1) mod 2 ^ 32 = 1 mod 2 ^ 32) by reflexivity.
  split; [exact H|].
  exact (proj1 (@SoA_resize_modulo Component field_type value_init eMyDouble
                  Rest (container_ SoA 3) (2 ^ 32 + 1) 1 H)).
Defined.

Lemma SoA_for_each_lvalue_writes_nothing_witness :
  nth_error [container_ SoA 3] 0 = Some (container_ SoA 3) /\
  consistent (container_ SoA 3) /\
  size (container_ SoA 3) < size_t_modulus /\
  (Z.to_nat (size (container_ SoA 3)) < 4)%nat /\
  range_for_each 4 (fun h it => deref_assign h it myDouble (Lvalue "x" two))
    [container_ SoA 3] (begin 0) (end_ 0 (container_ SoA 3))
  = Some [container_ SoA 3].
Proof.
  assert (Hc : consistent (container_ SoA 3)) by apply consistent_ctor.
  assert (Hs : size (container_ SoA 3) < size_t_modulus) by reflexivity.
  assert (Hf : (Z.to_nat (size (container_ SoA 3)) < 4)%nat)
    by (vm_compute; repeat constructor).
  split; [reflexivity|]. split; [exact Hc|]. split; [exact Hs|].
  split; [exact Hf|].
  exact (@SoA_for_each_lvalue_writes_nothing Component field_type eMyDouble
           Rest [container_ SoA 3] 0%nat (container_ SoA 3) eMyDouble myDouble
           "x"%string two 4%nat eq_refl Hc Hs Hf).
Defined.
